(** * anvil sketch: the markdown code-block extractor and its file writer

    A shallow embedding of [parse_code_blocks] (lines 160-217) and
    [create_files] (lines 220-239) of [anvil/commands/sketch.py], with the
    part of Python's [re] and [str] they call.

    Text is a list of characters.  A Python [str] is a sequence of code
    points; the embedding covers the code points 0..255 (one [ascii] each),
    with the two character classes the program relies on ([\w], [\s] and the
    whitespace of [str.strip]) taken from the Unicode tables for that
    range. *)

From Stdlib Require Import Ascii String List Bool Arith NArith Lia
  Permutation.
Import ListNotations.

Open Scope string_scope.
Open Scope list_scope.

Set Implicit Arguments.

(** ** Text *)

Definition text : Type := list ascii.

Definition str (s : string) : text := list_ascii_of_string s.

Definition nl : ascii := "010"%char.
Definition dquote : ascii := "034"%char.
Definition backtick : ascii := "`"%char.

(** [lines] joins lines with a newline, [quoted] wraps a text in double
    quotes; both only serve to write documents down. *)
Fixpoint lines (ls : list string) : text :=
  match ls with
  | [] => []
  | [l] => str l
  | l :: ls' => str l ++ nl :: lines ls'
  end.

Definition quoted (s : string) : text := dquote :: str s ++ [dquote].

Fixpoint text_eqb (a b : text) : bool :=
  match a, b with
  | [], [] => true
  | x :: a', y :: b' => Ascii.eqb x y && text_eqb a' b'
  | _, _ => false
  end.

(** *** Character classes *)

Definition code (c : ascii) : N := N_of_ascii c.

Definition between (lo hi : N) (c : ascii) : bool :=
  (lo <=? code c)%N && (code c <=? hi)%N.

Definition one_of (l : list N) (c : ascii) : bool :=
  existsb (N.eqb (code c)) l.

(** [\s] on a [str] pattern, which is also the whitespace of [str.strip()]:
    TAB..CR, FS..US, space, NEL and NBSP. *)
Definition is_space (c : ascii) : bool :=
  between 9 13 c || between 28 32 c || one_of [133; 160]%N c.

(** [\w] on a [str] pattern: alphanumeric code points and the underscore. *)
Definition is_word (c : ascii) : bool :=
  between 48 57 c || between 65 90 c || between 97 122 c
  || one_of [95; 170; 178; 179; 181; 185; 186]%N c
  || between 188 190 c || between 192 214 c || between 216 246 c
  || between 248 255 c.

Definition not_char (x c : ascii) : bool := negb (Ascii.eqb c x).

Definition any_char (_ : ascii) : bool := true.

(** *** [str.strip()] *)

Fixpoint lstrip (s : text) : text :=
  match s with
  | c :: s' => if is_space c then lstrip s' else s
  | [] => []
  end.

Definition rstrip (s : text) : text := rev (lstrip (rev s)).

Definition strip (s : text) : text := rstrip (lstrip s).

(** ** Regular expressions, as far as the program's pattern needs them *)

Inductive regex : Type :=
| Lit (l : text)                  (* a literal run of characters *)
| Seq (r1 r2 : regex)             (* r1 r2 *)
| Alt (r1 r2 : regex)             (* r1|r2, left first *)
| Opt (r : regex)                 (* r?  (greedy) *)
| Plus (p : ascii -> bool)        (* [class]+  (greedy) *)
| LazyStar (p : ascii -> bool)    (* [class]*? (lazy) *)
| Group (n : nat) (r : regex).    (* capturing group number n *)

Declare Scope regex_scope.
Delimit Scope regex_scope with re.
Bind Scope regex_scope with regex.
Infix ";;" := Seq (at level 61, right associativity) : regex_scope.
Infix "<|>" := Alt (at level 62, right associativity) : regex_scope.

(** Captured groups: the latest binding of a number comes first. *)
Definition groups : Type := list (nat * text).

Fixpoint group (n : nat) (g : groups) : text :=
  match g with
  | [] => []
  | (m, v) :: g' => if Nat.eqb n m then v else group n g'
  end.

Definition set_group (n : nat) (v : text) (g : groups) : groups := (n, v) :: g.

Fixpoint strip_prefix (l s : text) : option text :=
  match l, s with
  | [], _ => Some s
  | a :: l', b :: s' => if Ascii.eqb a b then strip_prefix l' s' else None
  | _ :: _, [] => None
  end.

(** The backtracking matcher of [re], in continuation-passing style: the
    continuation is the rest of the pattern, and a [None] from it makes the
    matcher try its next choice. *)
Section Matcher.
Variable A : Type.

Fixpoint greedy_star (p : ascii -> bool) (s : text) (k : text -> option A)
  : option A :=
  match s with
  | c :: s' =>
      if p c then
        match greedy_star p s' k with
        | Some x => Some x
        | None => k s
        end
      else k s
  | [] => k s
  end.

Definition greedy_plus (p : ascii -> bool) (s : text) (k : text -> option A)
  : option A :=
  match s with
  | c :: s' => if p c then greedy_star p s' k else None
  | [] => None
  end.

Fixpoint lazy_star (p : ascii -> bool) (s : text) (k : text -> option A)
  : option A :=
  match k s with
  | Some x => Some x
  | None =>
      match s with
      | c :: s' => if p c then lazy_star p s' k else None
      | [] => None
      end
  end.

Fixpoint rmatch (r : regex) (s : text) (g : groups)
         (k : text -> groups -> option A) : option A :=
  match r with
  | Lit l =>
      match strip_prefix l s with
      | Some s' => k s' g
      | None => None
      end
  | Seq r1 r2 => rmatch r1 s g (fun s' g' => rmatch r2 s' g' k)
  | Alt r1 r2 =>
      match rmatch r1 s g k with
      | Some x => Some x
      | None => rmatch r2 s g k
      end
  | Opt r1 =>
      match rmatch r1 s g k with
      | Some x => Some x
      | None => k s g
      end
  | Plus p => greedy_plus p s (fun s' => k s' g)
  | LazyStar p => lazy_star p s (fun s' => k s' g)
  | Group n r1 =>
      rmatch r1 s g
        (fun s' g' =>
           k s' (set_group n (firstn (length s - length s') s) g'))
  end.
End Matcher.

Fixpoint group_count (r : regex) : nat :=
  match r with
  | Lit _ | Plus _ | LazyStar _ => 0
  | Seq r1 r2 | Alt r1 r2 => group_count r1 + group_count r2
  | Opt r1 => group_count r1
  | Group _ r1 => S (group_count r1)
  end.

(** One attempt at the start of [s]: the tuple of the groups 1..n (empty
    text for a group that took no part) and the text after the match. *)
Definition match_at (r : regex) (s : text) : option (list text * text) :=
  rmatch r s []
    (fun s' g => Some (map (fun i => group i g) (seq 1 (group_count r)), s')).

(** [re.findall] for a pattern with several groups: the matches from left
    to right, not overlapping, each as the tuple of its groups.  [skip]
    counts the characters of the last match still to pass over.  (After an
    empty match the scan moves on by one character; the program's pattern
    never matches the empty text.) *)
Fixpoint scan (r : regex) (skip : nat) (s : text) : list (list text) :=
  match s with
  | [] =>
      match skip with
      | 0 =>
          match match_at r [] with
          | Some (t, _) => [t]
          | None => []
          end
      | S _ => []
      end
  | c :: s' =>
      match skip with
      | S j => scan r j s'
      | 0 =>
          match match_at r (c :: s') with
          | Some (t, rest) =>
              t :: scan r (length (c :: s') - length rest - 1) s'
          | None => scan r 0 s'
          end
      end
  end.

Definition findall (r : regex) (s : text) : list (list text) := scan r 0 s.

(** ** The pattern of [parse_code_blocks] *)

Definition fence : text := str "```".

(** [(tsx?|jsx?|py|css|html|json|md|yml|yaml|toml|sh|txt)] *)
Definition extension : regex :=
  (Lit (str "ts") ;; Opt (Lit (str "x")) <|> Lit (str "js") ;; Opt (Lit (str "x"))
   <|> Lit (str "py") <|> Lit (str "css") <|> Lit (str "html")
   <|> Lit (str "json") <|> Lit (str "md") <|> Lit (str "yml")
   <|> Lit (str "yaml") <|> Lit (str "toml") <|> Lit (str "sh")
   <|> Lit (str "txt"))%re.

(** [file=] and the opening double quote *)
Definition file_eq : text := str "file=" ++ [dquote].

(** [(\w+)\s+file=Q([^Q]+)Q], where Q is the double quote *)
Definition header_v0 : regex :=
  (Group 1 (Plus is_word) ;; Plus is_space ;; Lit file_eq ;;
   Group 2 (Plus (not_char dquote)) ;; Lit [dquote])%re.

(** [(\w+):([^\n]+\.(tsx?|...))] *)
Definition header_colon : regex :=
  (Group 3 (Plus is_word) ;; Lit (str ":") ;;
   Group 4 (Plus (not_char nl) ;; Lit (str ".") ;; Group 5 extension))%re.

(** [([^\n]+\.(tsx?|...))] *)
Definition header_direct : regex :=
  Group 6 (Plus (not_char nl) ;; Lit (str ".") ;; Group 7 extension)%re.

(** The whole pattern, compiled with [re.DOTALL]:
    three backticks, one of the three headers, a newline, [(.*?)], three
    backticks. *)
Definition headers : regex := (header_v0 <|> header_colon <|> header_direct)%re.

(** [\n(.*?)```] *)
Definition closing : regex :=
  (Lit [nl] ;; Group 8 (LazyStar any_char) ;; Lit fence)%re.

Definition pattern : regex := (Lit fence ;; headers ;; closing)%re.

(** ** Python values the function handles *)

Inductive exn : Type :=
| ValueError          (* unpacking a tuple of the wrong length *)
| FileExistsError     (* an OSError: mkdir on a path that is a regular file *)
| OSError.            (* any other failure of a system call *)

Inductive result (A : Type) : Type :=
| Ok (a : A)
| Raise (e : exn).

Arguments Ok {A} a.
Arguments Raise {A} e.

(** A [dict] keeps its keys in insertion order; assigning to a key that is
    there replaces the value in place. *)
Definition dict : Type := list (text * text).

Fixpoint dict_set (d : dict) (k v : text) : dict :=
  match d with
  | [] => [(k, v)]
  | (k', v') :: d' =>
      if text_eqb k k' then (k, v) :: d' else (k', v') :: dict_set d' k v
  end.

Fixpoint dict_get (d : dict) (k : text) : option text :=
  match d with
  | [] => None
  | (k', v') :: d' => if text_eqb k k' then Some v' else dict_get d' k
  end.

(** Truth value of a [str]: non-empty. *)
Definition truthy (s : text) : bool :=
  match s with
  | [] => false
  | _ :: _ => true
  end.

(** ** [parse_code_blocks] *)

(** The chain of comparisons that names a file after the language alone; the
    source has it twice, once under [language_v0] and once under
    [language_colon]. *)
Definition infer_from_language (files : dict) (language code : text) : dict :=
  if text_eqb language (str "typescript") || text_eqb language (str "ts")
     || text_eqb language (str "tsx")
  then dict_set files (str "index.ts") (strip code)
  else if text_eqb language (str "javascript") || text_eqb language (str "js")
          || text_eqb language (str "jsx")
  then dict_set files (str "index.js") (strip code)
  else if text_eqb language (str "python") || text_eqb language (str "py")
  then dict_set files (str "main.py") (strip code)
  else if text_eqb language (str "css")
  then dict_set files (str "styles.css") (strip code)
  else if text_eqb language (str "html")
  then dict_set files (str "index.html") (strip code)
  else if text_eqb language (str "json")
  then dict_set files (str "config.json") (strip code)
  else if text_eqb language (str "markdown") || text_eqb language (str "md")
  then dict_set files (str "README.md") (strip code)
  else files.

(** The body of the [for match in matches] loop. *)
Definition handle_match (files : dict) (m : list text) : result dict :=
  match m with
  | [language_v0; filename_v0; language_colon; filename_colon; ext_colon;
     filename_direct; ext_direct; code] =>
      Ok (if truthy language_v0 && truthy filename_v0
          then dict_set files filename_v0 (strip code)
          else if truthy language_colon && truthy filename_colon
          then dict_set files filename_colon (strip code)
          else if truthy filename_direct
          then dict_set files filename_direct (strip code)
          else if truthy language_v0 && truthy (strip code)
          then infer_from_language files language_v0 code
          else if truthy language_colon && truthy (strip code)
          then infer_from_language files language_colon code
          else files)
  | _ => Raise ValueError
  end.

Fixpoint for_matches (files : dict) (matches : list (list text))
  : result dict :=
  match matches with
  | [] => Ok files
  | m :: ms =>
      match handle_match files m with
      | Ok files' => for_matches files' ms
      | Raise e => Raise e
      end
  end.

Definition parse_code_blocks (content : text) : result dict :=
  for_matches [] (findall pattern content).

(** ** [create_files] *)

(** What [create_files] prints on the console. *)
Inductive message : Type :=
| NoFilesFound
| Creating (n : nat)
| Created (file_path : text)
| FailedToCreate (file_path : text) (e : exn).

Inductive outcome : Type :=
| Returned
| Raised (e : exn).

(** The operating system is not part of the program: the file system, the
    joining of paths and the two calls that touch the disk are parameters.
    Each call returns the error it raised, if any, and the disk it leaves. *)
Section CreateFiles.
Variable fs : Type.
Variable joinpath : text -> text -> text.      (* base_path / filename *)
Variable parent : text -> text.                (* file_path.parent *)
(* file_path.parent.mkdir(parents=True, exist_ok=True) *)
Variable mkdir_parents : text -> fs -> option exn * fs.
(* with open(file_path, 'w', encoding='utf-8') as f: f.write(content) *)
Variable write_text : text -> text -> fs -> option exn * fs.

Record world : Type := World { disk : fs; console : list message }.

Definition print (m : message) (w : world) : world :=
  World (disk w) (console w ++ [m]).

(** The [for filename, content in files.items()] loop: the [mkdir] call
    stands before the [try], the write inside it. *)
Fixpoint write_entries (base_path : text) (items : list (text * text))
         (w : world) : outcome * world :=
  match items with
  | [] => (Returned, w)
  | (filename, content) :: items' =>
      let file_path := joinpath base_path filename in
      match mkdir_parents (parent file_path) (disk w) with
      | (Some e, d) => (Raised e, World d (console w))
      | (None, d) =>
          match write_text file_path content d with
          | (None, d') =>
              write_entries base_path items'
                (print (Created file_path) (World d' (console w)))
          | (Some e, d') =>
              write_entries base_path items'
                (print (FailedToCreate file_path e) (World d' (console w)))
          end
      end
  end.

Definition create_files (files : dict) (base_path : text) (w : world)
  : outcome * world :=
  match files with
  | [] => (Returned, print NoFilesFound w)
  | _ :: _ =>
      write_entries base_path files (print (Creating (length files)) w)
  end.
End CreateFiles.

(** ** Vocabulary of the statements *)

(** *** Fences in a text *)

Definition starts_with (l s : text) : bool :=
  match strip_prefix l s with
  | Some _ => true
  | None => false
  end.

(** Three backticks occur somewhere in [s]. *)
Fixpoint has_fence (s : text) : bool :=
  starts_with fence s
  || match s with
     | [] => false
     | _ :: s' => has_fence s'
     end.

(** No fence starts inside [s], whatever text follows it: [s] holds no
    three backticks in a row, also when two more backticks come after. *)
Definition fence_free (s : text) : bool :=
  negb (has_fence (s ++ [backtick; backtick])).

Definition all_space (s : text) : bool := forallb is_space s.

(** [s] is empty or starts with a character outside the class [p]: a run of
    [p] cannot go on into [s]. *)
Definition stops (p : ascii -> bool) (s : text) : bool :=
  match s with
  | [] => true
  | c :: _ => negb (p c)
  end.

(** *** What a pattern matches, without the search order *)

Inductive matches : regex -> text -> groups -> groups -> Prop :=
| M_Lit l g : matches (Lit l) l g g
| M_Seq r1 r2 w1 w2 g g1 g2 :
    matches r1 w1 g g1 -> matches r2 w2 g1 g2 ->
    matches (Seq r1 r2) (w1 ++ w2) g g2
| M_AltL r1 r2 w g g' : matches r1 w g g' -> matches (Alt r1 r2) w g g'
| M_AltR r1 r2 w g g' : matches r2 w g g' -> matches (Alt r1 r2) w g g'
| M_OptSome r w g g' : matches r w g g' -> matches (Opt r) w g g'
| M_OptNone r g : matches (Opt r) [] g g
| M_Plus p w g : w <> [] -> forallb p w = true -> matches (Plus p) w g g
| M_LazyStar p w g : forallb p w = true -> matches (LazyStar p) w g g
| M_Group n r w g g' :
    matches r w g g' -> matches (Group n r) w g (set_group n w g').

(** *** Documents made of prose and blocks in the three recognised forms *)

(** The extensions of the pattern, as texts. *)
Definition extensions : list text :=
  map str ["ts"; "tsx"; "js"; "jsx"; "py"; "css"; "html"; "json"; "md";
           "yml"; "yaml"; "toml"; "sh"; "txt"].

Definition is_extension (e : text) : bool := existsb (text_eqb e) extensions.

Fixpoint dropwhile (p : ascii -> bool) (s : text) : text :=
  match s with
  | c :: s' => if p c then dropwhile p s' else s
  | [] => []
  end.

(** A fence line opens with a language token when a run of word characters
    at its start is followed by whitespace or a colon. *)
Definition language_token (line : text) : bool :=
  match line with
  | [] => false
  | c :: _ =>
      is_word c
      && match dropwhile is_word line with
         | [] => false
         | d :: _ => is_space d || Ascii.eqb d ":"
         end
  end.

Inductive segment : Type :=
| Prose (t : text)
| Attributed (language ws path body : text)  (* ```lang file=, path in double quotes *)
| ColonForm (language stem ext body : text)  (* ```lang:stem.ext *)
| DirectForm (stem ext body : text)          (* ```stem.ext *)
| BareLanguage (language body : text).       (* ```lang, on a line of its own *)

Definition dotted (stem ext : text) : text := stem ++ str "." ++ ext.

Definition render_segment (sg : segment) : text :=
  match sg with
  | Prose t => t
  | Attributed language ws path body =>
      fence ++ language ++ ws ++ file_eq ++ path
        ++ dquote :: nl :: body ++ fence
  | ColonForm language stem ext body =>
      fence ++ language ++ str ":" ++ dotted stem ext ++ nl :: body ++ fence
  | DirectForm stem ext body =>
      fence ++ dotted stem ext ++ nl :: body ++ fence
  | BareLanguage language body =>
      fence ++ language ++ nl :: body ++ fence ++ [nl]
  end.

Definition render (doc : list segment) : text :=
  flat_map render_segment doc.

Definition nonempty (s : text) : bool := truthy s.

(** Prose holds no fence; a block's body holds none before its closing
    fence; the parts of a header are as the form asks.  The body of a
    bare-language block does not go on with [file=] and a double quote after
    its leading whitespace, which would make an attributed header of it. *)
Definition well_formed (sg : segment) : bool :=
  match sg with
  | Prose t => fence_free t
  | Attributed language ws path body =>
      nonempty language && forallb is_word language
      && nonempty ws && forallb is_space ws
      && nonempty path && forallb (not_char dquote) path
      && fence_free body
  | ColonForm language stem ext body =>
      nonempty language && forallb is_word language
      && nonempty stem && forallb (not_char nl) stem
      && is_extension ext && fence_free body
  | DirectForm stem ext body =>
      nonempty stem && forallb (not_char nl) stem
      && is_extension ext && negb (language_token (dotted stem ext))
      && fence_free body
  | BareLanguage language body =>
      forallb is_word language && fence_free body
      && negb (starts_with file_eq (lstrip body))
  end.

(** The file a block names and the text between its fences. *)
Definition block_of (sg : segment) : option (text * text) :=
  match sg with
  | Prose _ | BareLanguage _ _ => None
  | Attributed _ _ path body => Some (path, body)
  | ColonForm _ stem ext body => Some (dotted stem ext, body)
  | DirectForm stem ext body => Some (dotted stem ext, body)
  end.

Fixpoint blocks (doc : list segment) : list (text * text) :=
  match doc with
  | [] => []
  | sg :: doc' =>
      match block_of sg with
      | Some b => b :: blocks doc'
      | None => blocks doc'
      end
  end.

(** The tuple [re.findall] yields for a block. *)
Definition tuple_of (sg : segment) : list (list text) :=
  match sg with
  | Prose _ | BareLanguage _ _ => []
  | Attributed language _ path body =>
      [[language; path; []; []; []; []; []; body]]
  | ColonForm language stem ext body =>
      [[[]; []; language; dotted stem ext; ext; []; []; body]]
  | DirectForm stem ext body =>
      [[[]; []; []; []; []; dotted stem ext; ext; body]]
  end.

(** [s] ends with [sfx]. *)
Definition ends_with (sfx s : text) : bool := starts_with (rev sfx) (rev s).

(** [path] ends with a dot and one of the recognised extensions. *)
Definition ends_with_extension (path : text) : bool :=
  existsb (fun e => ends_with (str "." ++ e) path) extensions.

(** *** Last write wins *)

(** The default file name of a language, as the chain of comparisons of
    [infer_from_language] has it. *)
Definition default_filename (language : text) : option text :=
  if text_eqb language (str "typescript") || text_eqb language (str "ts")
     || text_eqb language (str "tsx")
  then Some (str "index.ts")
  else if text_eqb language (str "javascript") || text_eqb language (str "js")
          || text_eqb language (str "jsx")
  then Some (str "index.js")
  else if text_eqb language (str "python") || text_eqb language (str "py")
  then Some (str "main.py")
  else if text_eqb language (str "css") then Some (str "styles.css")
  else if text_eqb language (str "html") then Some (str "index.html")
  else if text_eqb language (str "json") then Some (str "config.json")
  else if text_eqb language (str "markdown") || text_eqb language (str "md")
  then Some (str "README.md")
  else None.

(** The file a match resolves to and its raw body, read off the tuple the
    way the branches of the loop do; [None] when no branch writes. *)
Definition resolved (m : list text) : option (text * text) :=
  match m with
  | [language_v0; filename_v0; language_colon; filename_colon; _;
     filename_direct; _; code] =>
      if truthy language_v0 && truthy filename_v0 then Some (filename_v0, code)
      else if truthy language_colon && truthy filename_colon
      then Some (filename_colon, code)
      else if truthy filename_direct then Some (filename_direct, code)
      else if truthy language_v0 && truthy (strip code)
      then option_map (fun f => (f, code)) (default_filename language_v0)
      else if truthy language_colon && truthy (strip code)
      then option_map (fun f => (f, code)) (default_filename language_colon)
      else None
  | _ => None
  end.

(** The same, for the branches that take the file name from the fence. *)
Definition named_by_fence (m : list text) : option (text * text) :=
  match m with
  | [language_v0; filename_v0; language_colon; filename_colon; _;
     filename_direct; _; code] =>
      if truthy language_v0 && truthy filename_v0 then Some (filename_v0, code)
      else if truthy language_colon && truthy filename_colon
      then Some (filename_colon, code)
      else if truthy filename_direct then Some (filename_direct, code)
      else None
  | _ => None
  end.

(** The blocks of a text, in document order: what each match of the pattern
    resolves to. *)
Fixpoint resolve_all (ms : list (list text)) : list (text * text) :=
  match ms with
  | [] => []
  | m :: ms' =>
      match resolved m with
      | Some b => b :: resolve_all ms'
      | None => resolve_all ms'
      end
  end.

Definition classified (content : text) : list (text * text) :=
  resolve_all (findall pattern content).

(** Writing one block into the mapping. *)
Definition store (files : dict) (b : text * text) : dict :=
  dict_set files (fst b) (strip (snd b)).

(** The body of the last of [bs] named [k], [None] when there is none. *)
Fixpoint last_named (k : text) (bs : list (text * text)) : option text :=
  match bs with
  | [] => None
  | (k', v) :: bs' =>
      match last_named k bs' with
      | Some v' => Some v'
      | None => if text_eqb k k' then Some v else None
      end
  end.

Definition count_key (k : text) (d : dict) : nat :=
  length (filter (fun kv => text_eqb k (fst kv)) d).

(** *** A small file system to run [create_files] on *)

Module TinyFS.
(** A path is there as a directory ([None]) or as a regular file with its
    content; directories are looked up one by one, not along the path. *)
Definition fs : Type := list (text * option text).

Fixpoint lookup (p : text) (d : fs) : option (option text) :=
  match d with
  | [] => None
  | (q, node) :: d' => if text_eqb p q then Some node else lookup p d'
  end.

Definition joinpath (base filename : text) : text :=
  base ++ str "/" ++ filename.

(** The text before the last slash. *)
Fixpoint parent (p : text) : text :=
  match p with
  | [] => []
  | c :: p' =>
      if existsb (Ascii.eqb "/") p' then c :: parent p' else []
  end.

Definition mkdir_parents (p : text) (d : fs) : option exn * fs :=
  match lookup p d with
  | Some (Some _) => (Some FileExistsError, d)
  | Some None => (None, d)
  | None => (None, (p, None) :: d)
  end.

Definition write_text (p content : text) (d : fs) : option exn * fs :=
  match lookup (parent p) d, lookup p d with
  | Some None, Some None => (Some OSError, d)
  | Some None, _ => (None, (p, Some content) :: d)
  | _, _ => (Some OSError, d)
  end.

Definition create_files :=
  create_files joinpath parent mkdir_parents write_text.
End TinyFS.

(** *** What the loop of [create_files] reports when it runs through *)

Section Reports.
Variable joinpath : text -> text -> text.

End Reports.

(** ** Example documents *)

(** An attributed block between two lines of prose. *)
Definition page_doc : list segment :=
  [Prose (lines ["Here is the page:"; ""]);
   Attributed (str "tsx") (str " ") (str "app/page.tsx")
     (lines ["export default function Home(){}"; ""]);
   Prose (lines [""; "Done."])].

Definition page_text : text :=
  str "```tsx file=" ++ quoted "app/page.tsx" ++ nl
    :: lines ["export default function Home(){}"; "```"].

(** A colon-form block after a block with a bare language. *)
Definition main_doc : list segment :=
  [BareLanguage (str "bash") (lines ["pip install anvil"; ""]);
   ColonForm (str "py") (str "main") (str "py") (lines ["print(1)"; ""])].

Definition main_text : text := lines ["```py:main.py"; "print(1)"; "```"].

(** A colon form with an extension outside the set. *)
Definition ruby_text : text := lines ["```rb:main.rb"; "puts 1"; "```"].

(** A colon and then nothing before the dot of the extension. *)
Definition stemless_text : text := lines ["```py:.py"; "x = 1"; "```"].

(** A direct-filename block. *)
Definition square_doc : list segment :=
  [Prose (lines ["The square:"; ""]);
   DirectForm (str "components/square") (str "tsx") (lines ["..."; ""])].

Definition square_text : text :=
  lines ["```components/square.tsx"; "..."; "```"].

(** Two blocks with the bare language [typescript]. *)
Definition two_typescript_text : text :=
  lines ["```typescript"; "const a = 1"; "```"; "";
         "```typescript"; "const b = 2"; "```"].

(** A closed block, prose, and a fence that nothing closes. *)
Definition closed_doc : list segment :=
  [DirectForm (str "a") (str "py") (lines ["x = 1"; ""]);
   Prose (lines [""; "and then"; ""])].

Definition open_tail : text := lines ["b.py"; "y = 2"; "no closing fence"].

(** Two fences after one opening fence: the body ends at the first. *)
Definition two_closings_text : text :=
  lines ["```a.py"; "x = 1"; "```"; "y = 2"; "```"].

(** A body with blank lines around and inside it. *)
Definition padded_text : text :=
  lines ["```a.py"; ""; "  x = 1"; ""; "  y = 2  "; ""; "```"].

(** Blocks with an explicit file name and nothing but whitespace inside. *)
Definition blank_doc : list segment :=
  [Attributed (str "tsx") (str " ") (str "app/page.tsx") (lines [" "; ""]);
   ColonForm (str "py") (str "main") (str "py") [];
   DirectForm (str "notes") (str "md") (lines [""; ""])].

(** Three blocks, the first and the last naming [a.py]. *)
Definition overwrite_text : text :=
  lines ["```a.py"; "first"; "```"; "```b.py"; "other"; "```";
         "```py:a.py"; "second"; "```"].

(** Text without a fence. *)
Definition plain_text : text := lines ["No code here,"; "only `inline` code."].

(** A disk on which [out/a] is a regular file. *)
Definition blocked_disk : TinyFS.fs :=
  [(str "out", None); (str "out/a", Some (str "old"))].

(** A disk on which [out/a] is a directory. *)
Definition directory_disk : TinyFS.fs :=
  [(str "out", None); (str "out/a", None)].

Definition two_files : dict :=
  [(str "a/b.txt", str "x"); (str "c.txt", str "y")].

(** * The rest of [sketch.py] *)

(** ** More of Python's [str] and text files *)

Definition cr : ascii := "013"%char.

(** A file opened in text mode for reading (universal newlines): a carriage
    return, with the newline after it if there is one, is read as one
    newline. *)
Fixpoint universal_newlines (s : text) : text :=
  match s with
  | [] => []
  | c :: s' =>
      if Ascii.eqb c cr then
        nl :: match s' with
              | d :: s'' =>
                  if Ascii.eqb d nl then universal_newlines s''
                  else universal_newlines s'
              | [] => []
              end
      else c :: universal_newlines s'
  end.

(** [f.readlines()]: the lines with their newline, the last one maybe
    without. *)
Fixpoint readlines (s : text) : list text :=
  match s with
  | [] => []
  | c :: s' =>
      if Ascii.eqb c nl then [c] :: readlines s'
      else match readlines s' with
           | [] => [[c]]
           | l :: ls => (c :: l) :: ls
           end
  end.

(** [str.lower()] on the code points 0..255: A..Z and the capital letters
    of Latin-1 (all of 192..222 but the multiplication sign). *)
Definition lower_char (c : ascii) : ascii :=
  if between 65 90 c || (between 192 222 c && negb (N.eqb (code c) 215))
  then ascii_of_N (code c + 32)
  else c.

Definition lower (s : text) : text := map lower_char s.

(** [''.join(parts)] with a separator. *)
Fixpoint join (sep : text) (parts : list text) : text :=
  match parts with
  | [] => []
  | [p] => p
  | p :: ps => p ++ sep ++ join sep ps
  end.

(** Comparison of [str]: by code point, a proper prefix first. *)
Fixpoint text_leb (a b : text) : bool :=
  match a, b with
  | [], _ => true
  | _ :: _, [] => false
  | x :: a', y :: b' =>
      if Ascii.eqb x y then text_leb a' b' else (code x <? code y)%N
  end.

(** Comparison of the pairs of [dict.items()]: the first components, and
    the second ones when those are equal. *)
Definition item_leb (a b : text * text) : bool :=
  if text_eqb (fst a) (fst b) then text_leb (snd a) (snd b)
  else text_leb (fst a) (fst b).

(** [sorted]: a stable sort; by insertion here. *)
Section Sorted.
Variable T : Type.
Variable leb : T -> T -> bool.

Fixpoint insert_sorted (x : T) (l : list T) : list T :=
  match l with
  | [] => [x]
  | y :: l' => if leb x y then x :: l else y :: insert_sorted x l'
  end.

Fixpoint sorted (l : list T) : list T :=
  match l with
  | [] => []
  | x :: l' => insert_sorted x (sorted l')
  end.
End Sorted.

(** *** [pathlib] on a POSIX system *)

(** The index of the last dot of a name ([name.rfind('.')]). *)
Fixpoint last_dot (name : text) : option nat :=
  match name with
  | [] => None
  | c :: name' =>
      match last_dot name' with
      | Some i => Some (S i)
      | None => if Ascii.eqb c "." then Some 0 else None
      end
  end.

(** [PurePath.suffix] of a path whose last component is [name]: from the
    last dot on, when that dot is neither the first nor the last character
    of the name. *)
Definition suffix_of_name (name : text) : text :=
  match last_dot name with
  | Some i =>
      if ((0 <? i) && (i <? length name - 1))%nat then skipn i name else []
  | None => []
  end.

(** Splitting at the slashes. *)
Fixpoint split_slash (s : text) : list text :=
  match s with
  | [] => [[]]
  | c :: s' =>
      if Ascii.eqb c "/" then [] :: split_slash s'
      else match split_slash s' with
           | [] => [[c]]
           | p :: ps => (c :: p) :: ps
           end
  end.

(** [Path(s).name]: the last component, empty components and single dots
    left out. *)
Definition path_name (s : text) : text :=
  last (filter (fun p => negb (text_eqb p []) && negb (text_eqb p (str ".")))
          (split_slash s)) [].

(** [Path(s).suffix] *)
Definition path_suffix (s : text) : text := suffix_of_name (path_name s).

(** ** Saving the API key: [save_api_key_globally] and [config --set-key] *)

(** [line.strip().startswith('V0_API_KEY=')] *)
Definition sets_api_key (line : text) : bool :=
  starts_with (str "V0_API_KEY=") (strip line).

(** The text both functions write to the [.env] file: [existing] is what
    the file holds when it exists.  The lines that set the key are dropped,
    the rest is written back, a newline is added when that rest is not
    empty and does not end with one, and the line with the new key comes
    last.  (Written in text mode on a system whose line separator is the
    newline.) *)
Definition save_api_key (existing : option text) (api_key : text) : text :=
  let existing_content :=
    match existing with
    | Some on_disk =>
        let lines := readlines (universal_newlines on_disk) in
        let lines := filter (fun line => negb (sets_api_key line)) lines in
        concat lines
    | None => []
    end in
  existing_content
    ++ (if truthy existing_content && negb (ends_with [nl] existing_content)
        then [nl] else [])
    ++ str "V0_API_KEY=" ++ api_key ++ [nl].

(** The lines of the file that do not set the key. *)
Definition other_lines (existing : option text) : list text :=
  match existing with
  | Some on_disk =>
      filter (fun line => negb (sets_api_key line))
        (readlines (universal_newlines on_disk))
  | None => []
  end.

Definition key_line (api_key : text) : text :=
  str "V0_API_KEY=" ++ api_key ++ [nl].

(** A line of a text file, closed by a newline if it is not. *)
Definition closed_line (line : text) : text :=
  if ends_with [nl] line then line else line ++ [nl].

Definition single_line (s : text) : bool :=
  forallb (fun c => negb (Ascii.eqb c nl) && negb (Ascii.eqb c cr)) s.

(** Lines as [readlines] gives them: each one ends with its only newline,
    but for the last, which may have none and is then not empty. *)
Inductive proper_lines : list text -> Prop :=
| PL_nil : proper_lines []
| PL_open l :
    l <> [] -> forallb (not_char nl) l = true -> proper_lines [l]
| PL_closed l ls :
    forallb (not_char nl) l = true -> proper_lines ls ->
    proper_lines ((l ++ [nl]) :: ls).

Definition no_cr (s : text) : bool := forallb (not_char cr) s.

(** The newline [save_api_key] puts after what it keeps. *)
Definition closing_newline (kept : text) : text :=
  if truthy kept && negb (ends_with [nl] kept) then [nl] else [].

(** An [.env] file with a key in the middle and no newline at its end. *)
Definition env_text : text :=
  lines ["DEBUG=1"; "  V0_API_KEY=old"; "PORT=8000"].

(** ** Reading the codebase: [should_include_file] and [read_codebase] *)

Definition INCLUDE_EXTENSIONS : list text :=
  map str [".py"; ".js"; ".jsx"; ".ts"; ".tsx"; ".css"; ".scss"; ".sass";
           ".less"; ".html"; ".htm"; ".vue"; ".svelte"; ".json"; ".yaml";
           ".yml"; ".toml"; ".md"; ".mdx"; ".txt"; ".env"; ".gitignore";
           ".dockerignore"; ".sql"; ".graphql"; ".gql"; ".xml"; ".svg"].

Definition EXCLUDE_DIRS : list text :=
  map str ["node_modules"; ".git"; ".svn"; ".hg"; "__pycache__";
           ".pytest_cache"; ".mypy_cache"; ".ruff_cache"; "dist"; "build";
           ".next"; ".nuxt"; "coverage"; "htmlcov"; ".coverage"; ".env";
           ".venv"; "venv"; "env"; ".DS_Store"; "Thumbs.db"; ".idea";
           ".vscode"; "*.egg-info"].

(** [x in s] for a set of [str]. *)
Definition member (x : text) (s : list text) : bool := existsb (text_eqb x) s.

(** A path that [base_path.rglob] yields, with what the code asks of it:
    its components below [base_path], whether it is a regular file, its size
    ([None] when [stat] raises) and what reading it gives ([None] when
    opening or reading raises). *)
Record found_path : Type := FoundPath {
  rel_parts : list text;
  is_file : bool;
  st_size : option N;
  content : option text
}.

Section ReadCodebase.
(** [base_path.parts] *)
Variable base_parts : list text.

(** [file_path.parts] *)
Definition parts (p : found_path) : list text := base_parts ++ rel_parts p.

(** [file_path.suffix] *)
Definition suffix (p : found_path) : text :=
  suffix_of_name (last (parts p) []).

Definition should_include_file (p : found_path) : bool :=
  if negb (member (lower (suffix p)) INCLUDE_EXTENSIONS) then false
  else if existsb (fun part => member part EXCLUDE_DIRS) (parts p) then false
  else match st_size p with
       | Some size => negb (100000 <? size)%N
       | None => false
       end.

(** [str(file_path.relative_to(base_path))] *)
Definition relative_path (p : found_path) : text :=
  join (str "/") (rel_parts p).

(** The loop of [read_codebase] over the paths [rglob] yields, in the
    order it yields them (up to the point where the walk itself raises,
    if it does: the mapping built so far is returned). *)
Fixpoint read_into (codebase : dict) (found : list found_path) : dict :=
  match found with
  | [] => codebase
  | p :: found' =>
      if is_file p && should_include_file p then
        match content p with
        | Some c => read_into (dict_set codebase (relative_path p) c) found'
        | None => read_into codebase found'
        end
      else read_into codebase found'
  end.

Definition read_codebase (found : list found_path) : dict :=
  read_into [] found.
End ReadCodebase.

(** The entries the loop of [read_codebase] writes, in its order: the
    relative path and the text of each regular file that is to be included
    and can be read. *)
Fixpoint read_items (base_parts : list text) (found : list found_path)
  : list (text * text) :=
  match found with
  | [] => []
  | p :: found' =>
      if is_file p && should_include_file base_parts p then
        match content p with
        | Some c => (relative_path p, c) :: read_items base_parts found'
        | None => read_items base_parts found'
        end
      else read_items base_parts found'
  end.

(** ** [format_codebase_for_api] *)

Definition language_map : list (text * text) :=
  [(str ".py", str "python"); (str ".js", str "javascript");
   (str ".jsx", str "jsx"); (str ".ts", str "typescript");
   (str ".tsx", str "tsx"); (str ".css", str "css");
   (str ".html", str "html"); (str ".json", str "json");
   (str ".md", str "markdown"); (str ".yml", str "yaml");
   (str ".yaml", str "yaml"); (str ".toml", str "toml");
   (str ".sql", str "sql"); (str ".graphql", str "graphql")].

(** [language_map.get(extension, 'text')] *)
Definition language_of (file_path : text) : text :=
  match dict_get language_map (lower (path_suffix file_path)) with
  | Some language => language
  | None => str "text"
  end.

Definition structure_line (file_path : text) : text :=
  str "- " ++ file_path ++ [nl].

Definition file_section (item : text * text) : text :=
  str "### " ++ fst item ++ [nl; nl]
    ++ fence ++ language_of (fst item) ++ [nl] ++ snd item ++ [nl]
    ++ fence ++ [nl; nl].

Definition format_codebase_for_api (codebase : dict) : text :=
  lines ["# Codebase Analysis"; "";
         "Please analyze this codebase and offer improvements, suggestions, and best practices.";
         ""; ""]
    ++ lines ["## File Structure"; ""; ""]
    ++ concat (map structure_line (sorted text_leb (map fst codebase)))
    ++ lines [""; "## File Contents"; ""; ""]
    ++ concat (map file_section (sorted item_leb codebase)).

(** ** [generate]: parsing the response and writing the files *)

Section Generate.
Variable fs : Type.
Variable joinpath : text -> text -> text.
Variable parent : text -> text.
Variable mkdir_parents : text -> fs -> option exn * fs.
Variable write_text : text -> text -> fs -> option exn * fs.

(** [files = parse_code_blocks(response); create_files(files)] *)
Definition generate_files (response : text) (base_path : text)
           (w : world fs) : outcome * world fs :=
  match parse_code_blocks response with
  | Ok files =>
      create_files joinpath parent mkdir_parents write_text files base_path w
  | Raise e => (Raised e, w)
  end.
End Generate.

(** *** Vocabulary *)

(** No text occurs twice in the list. *)
Fixpoint distinct (l : list text) : bool :=
  match l with
  | [] => true
  | x :: l' => negb (member x l') && distinct l'
  end.


(** A file name as the pattern can give it: without a double quote (from
    the attributed form), or on one line and ending with a dot and a
    recognised extension (from the colon and the direct form). *)
Definition fence_name (f : text) : bool :=
  forallb (not_char dquote) f
  || (forallb (not_char nl) f && ends_with_extension f).

(** The elements of a list, each at its first place. *)
Fixpoint first_occurrences (l : list text) : list text :=
  match l with
  | [] => []
  | k :: l' =>
      k :: filter (fun k' => negb (text_eqb k' k)) (first_occurrences l')
  end.

(** A file system in which every directory is there and the files of
    [locked] cannot be written. *)
Module LockedFS.
Record fs : Type := Disk { locked : list text; files : list (text * text) }.

Definition joinpath (base filename : text) : text :=
  base ++ str "/" ++ filename.

Definition parent (p : text) : text := TinyFS.parent p.

Definition mkdir_parents (p : text) (d : fs) : option exn * fs := (None, d).

Definition write_text (p c : text) (d : fs) : option exn * fs :=
  if member p (locked d) then (Some OSError, d)
  else (None, Disk (locked d) ((p, c) :: files d)).

Definition create_files :=
  create_files joinpath parent mkdir_parents write_text.

Definition generate_files :=
  generate_files joinpath parent mkdir_parents write_text.
End LockedFS.

(** A response with two files, one of them locked on the disk. *)
Definition two_files_text : text :=
  lines ["```a.py"; "x = 1"; "```"; "```b.py"; "y = 2"; "```";
         "```py:a.py"; "x = 3"; "```"].

Definition locked_disk : LockedFS.fs :=
  LockedFS.Disk [str "out/a.py"] [].

(** A small project: a source file, a file under [node_modules], a file
    that cannot be read, a file that is too large and two dotfiles. *)
Definition project_files : list found_path :=
  [FoundPath [str "src"; str "app.PY"] true (Some 120%N) (Some (str "x = 1"));
   FoundPath [str "node_modules"; str "lib.js"] true (Some 50%N)
     (Some (str "lib"));
   FoundPath [str "secret.json"] true (Some 10%N) None;
   FoundPath [str "data.json"] true (Some 100001%N) (Some (str "big"));
   FoundPath [str ".gitignore"] true (Some 5%N) (Some (str "dist"));
   FoundPath [str "README.md"] true (Some 7%N) (Some (str "# Hi"));
   FoundPath [str "src"] false (Some 4096%N) None].

(** * Properties *)

Arguments Ascii.eqb : simpl never.


(** ** Text *)

Lemma text_eqb_eq (a b : text) : text_eqb a b = true <-> a = b.
Proof.
  revert b; induction a as [|x a IH]; intros [|y b]; simpl;
    try (split; [discriminate | discriminate]); try tauto.
  rewrite andb_true_iff, Ascii.eqb_eq, IH.
  split; [intros [-> ->]; reflexivity | intros [= -> ->]; auto].
Qed.

Lemma text_eqb_refl (a : text) : text_eqb a a = true.
Proof. apply text_eqb_eq; reflexivity. Qed.

Lemma text_eqb_neq (a b : text) : text_eqb a b = false <-> a <> b.
Proof.
  rewrite <- text_eqb_eq. destruct (text_eqb a b); split; congruence.
Qed.

Lemma text_eqb_sym (a b : text) : text_eqb a b = text_eqb b a.
Proof.
  destruct (text_eqb a b) eqn:E.
  - apply text_eqb_eq in E; subst; symmetry; apply text_eqb_refl.
  - symmetry; apply text_eqb_neq; apply text_eqb_neq in E; congruence.
Qed.

Lemma strip_prefix_Some (l s s' : text) :
  strip_prefix l s = Some s' <-> s = l ++ s'.
Proof.
  revert s; induction l as [|a l IH]; intros s; simpl.
  - split; [intros [= ->]; reflexivity | intros ->; reflexivity].
  - destruct s as [|b s]; [split; discriminate|].
    destruct (Ascii.eqb a b) eqn:E.
    + apply Ascii.eqb_eq in E; subst b. rewrite IH.
      split; [intros ->; reflexivity | intros [= ->]; reflexivity].
    + apply Ascii.eqb_neq in E. split; [discriminate | intros [= -> _]; tauto].
Qed.

Lemma strip_prefix_app (l s : text) : strip_prefix l (l ++ s) = Some s.
Proof. apply strip_prefix_Some; reflexivity. Qed.

Lemma firstn_consumed (w s : text) :
  firstn (length (w ++ s) - length s) (w ++ s) = w.
Proof.
  rewrite length_app, Nat.add_sub.
  rewrite firstn_app, Nat.sub_diag, firstn_all; simpl. apply app_nil_r.
Qed.

(** ** The matcher finds only what the pattern matches *)

Section Soundness.
Variable A : Type.

Lemma greedy_star_sound p s (k : text -> option A) x :
  greedy_star p s k = Some x ->
  exists w s', s = w ++ s' /\ forallb p w = true /\ k s' = Some x.
Proof.
  revert x; induction s as [|c s IH]; intros x; simpl.
  - intros H; exists [], []; auto.
  - destruct (p c) eqn:Pc.
    + destruct (greedy_star p s k) as [y|] eqn:G.
      * intros [= ->]. destruct (IH x eq_refl) as (w & s' & -> & Hw & Hk).
        exists (c :: w), s'; simpl; rewrite Pc, Hw; auto.
      * intros H; exists [], (c :: s); auto.
    + intros H; exists [], (c :: s); auto.
Qed.

Lemma greedy_plus_sound p s (k : text -> option A) x :
  greedy_plus p s k = Some x ->
  exists w s', s = w ++ s' /\ w <> [] /\ forallb p w = true /\ k s' = Some x.
Proof.
  destruct s as [|c s]; simpl; [discriminate|].
  destruct (p c) eqn:Pc; [|discriminate].
  intros H; apply greedy_star_sound in H as (w & s' & -> & Hw & Hk).
  exists (c :: w), s'; simpl; rewrite Pc, Hw; repeat split; auto; discriminate.
Qed.

(** The lazy star stops at the first place where the rest of the pattern
    goes through. *)
Lemma lazy_star_first p s (k : text -> option A) x :
  lazy_star p s k = Some x ->
  exists w s',
    s = w ++ s' /\ forallb p w = true /\ k s' = Some x
    /\ forall w1 w2, w = w1 ++ w2 -> w2 <> [] -> k (w2 ++ s') = None.
Proof.
  revert x; induction s as [|c s IH]; intros x; simpl.
  - destruct (k []) eqn:K; [|discriminate].
    intros [= ->]. exists [], []; repeat split; auto.
    intros w1 w2 E; symmetry in E; apply app_eq_nil in E as [_ ->]; tauto.
  - destruct (k (c :: s)) eqn:K.
    + intros [= ->]. exists [], (c :: s); repeat split; auto.
      intros w1 w2 E; symmetry in E; apply app_eq_nil in E as [_ ->]; tauto.
    + destruct (p c) eqn:Pc; [|discriminate].
      intros H; destruct (IH x H) as (w & s' & -> & Hw & Hk & Hmin).
      exists (c :: w), s'; simpl; rewrite Pc, Hw; repeat split; auto.
      intros [|d w1] w2 E Hne; simpl in E.
      * subst w2; exact K.
      * injection E as -> ->. apply (Hmin w1 w2); auto.
Qed.

Lemma rmatch_sound r : forall s g (k : text -> groups -> option A) x,
  rmatch r s g k = Some x ->
  exists w s' g', s = w ++ s' /\ matches r w g g' /\ k s' g' = Some x.
Proof.
  induction r as [l|r1 IH1 r2 IH2|r1 IH1 r2 IH2|r1 IH1|p|p|n r1 IH1];
    intros s g k x; simpl.
  - destruct (strip_prefix l s) as [s'|] eqn:E; [|discriminate].
    apply strip_prefix_Some in E; subst s.
    intros H; exists l, s', g; repeat split; auto. constructor.
  - intros H. apply IH1 in H as (w1 & s1 & g1 & -> & M1 & H).
    apply IH2 in H as (w2 & s2 & g2 & -> & M2 & H).
    exists (w1 ++ w2), s2, g2; rewrite <- app_assoc; repeat split; auto.
    econstructor; eauto.
  - destruct (rmatch r1 s g k) as [y|] eqn:E.
    + intros [= ->]. apply IH1 in E as (w & s' & g' & -> & M & H).
      exists w, s', g'; repeat split; auto. apply M_AltL; auto.
    + intros H. apply IH2 in H as (w & s' & g' & -> & M & H).
      exists w, s', g'; repeat split; auto. apply M_AltR; auto.
  - destruct (rmatch r1 s g k) as [y|] eqn:E.
    + intros [= ->]. apply IH1 in E as (w & s' & g' & -> & M & H).
      exists w, s', g'; repeat split; auto. apply M_OptSome; auto.
    + intros H. exists [], s, g; repeat split; auto. apply M_OptNone.
  - intros H; apply greedy_plus_sound in H as (w & s' & -> & Hne & Hw & H).
    exists w, s', g; repeat split; auto. constructor; auto.
  - intros H; apply lazy_star_first in H as (w & s' & -> & Hw & H & _).
    exists w, s', g; repeat split; auto. constructor; auto.
  - intros H. apply IH1 in H as (w & s' & g' & -> & M & H).
    rewrite firstn_consumed in H.
    exists w, s', (set_group n w g'); repeat split; auto. constructor; auto.
Qed.
End Soundness.

(** ** Fences *)

Lemma fence_needs_backtick (c : ascii) (s : text) :
  c <> backtick -> strip_prefix fence (c :: s) = None.
Proof.
  intros H. unfold fence; simpl.
  destruct (Ascii.eqb "`" c) eqn:E; auto.
  apply Ascii.eqb_eq in E. unfold backtick in H. congruence.
Qed.

(** A fence that starts inside [t] when anything follows also starts there
    when two backticks follow. *)
Lemma fence_start_padded (t b : text) :
  t <> [] ->
  starts_with fence (t ++ [backtick; backtick]) = false ->
  strip_prefix fence (t ++ b) = None.
Proof.
  unfold starts_with, fence, backtick; intros Hne.
  destruct t as [|c1 [|c2 [|c3 t]]]; [tauto| | |]; simpl;
    repeat match goal with
    | |- context [Ascii.eqb ?a ?b] => destruct (Ascii.eqb a b); simpl
    end; auto; try discriminate;
    destruct b as [|b1 [|b2 b]]; simpl;
    repeat match goal with
    | |- context [Ascii.eqb ?a ?b] => destruct (Ascii.eqb a b); simpl
    end; auto; discriminate.
Qed.

Lemma has_fence_app_r (a b : text) :
  has_fence (a ++ b) = false -> has_fence b = false.
Proof.
  induction a as [|c a IH]; auto.
  cbn [app has_fence]. intros H; apply orb_false_iff in H as [_ H]; auto.
Qed.

Lemma has_fence_head (s : text) :
  has_fence s = false -> starts_with fence s = false.
Proof.
  destruct s; cbn [has_fence]; intros H; apply orb_false_iff in H as [H _]; auto.
Qed.

Lemma fence_free_no_start (t t1 t2 b : text) :
  fence_free t = true -> t = t1 ++ t2 -> t2 <> [] ->
  strip_prefix fence (t2 ++ b) = None.
Proof.
  unfold fence_free; intros H -> Hne.
  apply negb_true_iff in H. rewrite <- app_assoc in H.
  apply has_fence_app_r, has_fence_head in H.
  apply fence_start_padded; auto.
Qed.

Lemma fence_free_app_r (t1 t2 : text) :
  fence_free (t1 ++ t2) = true -> fence_free t2 = true.
Proof.
  unfold fence_free; rewrite !negb_true_iff, <- app_assoc.
  apply has_fence_app_r.
Qed.

Lemma has_fence_app_fence (a b : text) : has_fence (a ++ fence ++ b) = true.
Proof.
  induction a as [|c a IH].
  - assert (E : forall s, starts_with fence s = true -> has_fence s = true)
      by (intros [|? ?] H; cbn [has_fence]; rewrite H; reflexivity).
    apply E. unfold starts_with. cbn [app]. rewrite strip_prefix_app. reflexivity.
  - cbn [app has_fence]. rewrite IH; apply orb_true_r.
Qed.

(** ** The scan *)

Lemma scan_skip r (a b : text) n :
  scan r (length a + n) (a ++ b) = scan r n b.
Proof. induction a as [|c a IH]; simpl; auto. Qed.

Lemma scan_match r (w rest : text) t :
  w <> [] -> match_at r (w ++ rest) = Some (t, rest) ->
  scan r 0 (w ++ rest) = t :: scan r 0 rest.
Proof.
  destruct w as [|c w]; [tauto|]; intros _ H.
  change ((c :: w) ++ rest) with (c :: (w ++ rest)) in *.
  cbn [scan]. rewrite H. f_equal.
  replace (length (c :: w ++ rest) - length rest - 1) with (length w + 0).
  - apply scan_skip.
  - cbn [length]; rewrite length_app; lia.
Qed.

Lemma scan_miss r c (s : text) :
  match_at r (c :: s) = None -> scan r 0 (c :: s) = scan r 0 s.
Proof. intros H; cbn [scan]; rewrite H; reflexivity. Qed.

Lemma scan_In r : forall s n m,
  In m (scan r n s) ->
  exists pre u rest, s = pre ++ u /\ match_at r u = Some (m, rest).
Proof.
  induction s as [|c s IH]; intros n m; cbn [scan].
  - destruct n; [|intros []].
    destruct (match_at r []) as [[t rest]|] eqn:E; [|intros []].
    intros [<-|[]]. exists [], [], rest; auto.
  - destruct n as [|n].
    + destruct (match_at r (c :: s)) as [[t rest]|] eqn:E.
      * intros [<-|H].
        -- exists [], (c :: s), rest; auto.
        -- apply IH in H as (pre & u & rest' & -> & H).
           exists (c :: pre), u, rest'; auto.
      * intros H. apply IH in H as (pre & u & rest' & -> & H).
        exists (c :: pre), u, rest'; auto.
    + intros H. apply IH in H as (pre & u & rest' & -> & H).
      exists (c :: pre), u, rest'; auto.
Qed.

(** ** The pattern needs an opening fence *)

Lemma match_at_needs_fence (s : text) :
  strip_prefix fence s = None -> match_at pattern s = None.
Proof.
  intros H. unfold match_at, pattern. cbn [rmatch]. rewrite H. reflexivity.
Qed.

Lemma match_at_nil : match_at pattern [] = None.
Proof. reflexivity. Qed.

(** Prose is passed over. *)
Lemma scan_prose (t b : text) :
  fence_free t = true -> scan pattern 0 (t ++ b) = scan pattern 0 b.
Proof.
  induction t as [|c t IH]; intros H; auto.
  change ((c :: t) ++ b) with (c :: (t ++ b)).
  rewrite scan_miss.
  - apply IH. apply (fence_free_app_r [c] t H).
  - apply match_at_needs_fence.
    apply (@fence_free_no_start (c :: t) [] (c :: t) b); auto.
    discriminate.
Qed.

(** ** Where a greedy run stops and how it backs off *)

Section Priority.
Variable A : Type.

Lemma greedy_star_stops p s (k : text -> option A) :
  stops p s = true -> greedy_star p s k = k s.
Proof.
  destruct s as [|c s]; simpl; auto.
  intros H; apply negb_true_iff in H; rewrite H; reflexivity.
Qed.

Lemma greedy_star_none p u s (k : text -> option A) :
  forallb p u = true -> stops p s = true ->
  (forall u1 u2, u = u1 ++ u2 -> k (u2 ++ s) = None) ->
  greedy_star p (u ++ s) k = None.
Proof.
  induction u as [|c u IH]; intros Hu Hs Hk.
  - rewrite greedy_star_stops by auto. apply (Hk [] []); reflexivity.
  - simpl in Hu; apply andb_true_iff in Hu as [Pc Hu].
    cbn [app greedy_star]. rewrite Pc, IH; auto.
    + apply (Hk [] (c :: u)); reflexivity.
    + intros u1 u2 ->. apply (Hk (c :: u1) u2); reflexivity.
Qed.

(** The run takes [w ++ u], the rest of the pattern fails after every
    non-empty part of [u] given back but goes through once all of [u] is
    given back. *)
Lemma greedy_star_backtrack p w u s (k : text -> option A) x :
  forallb p (w ++ u) = true -> stops p s = true ->
  (forall u1 u2, u = u1 ++ u2 -> u1 <> [] -> k (u2 ++ s) = None) ->
  k (u ++ s) = Some x ->
  greedy_star p (w ++ u ++ s) k = Some x.
Proof.
  intros Hwu Hs Hk Hx. rewrite forallb_app in Hwu.
  apply andb_true_iff in Hwu as [Hw Hu].
  induction w as [|c w IH].
  - cbn [app]. destruct u as [|c u].
    + cbn [app] in *. rewrite greedy_star_stops; auto.
    + simpl in Hu; apply andb_true_iff in Hu as [Pc Hu].
      cbn [app greedy_star]. rewrite Pc, greedy_star_none; auto.
      intros u1 u2 ->. apply (Hk (c :: u1) u2); [reflexivity | discriminate].
  - simpl in Hw; apply andb_true_iff in Hw as [Pc Hw].
    cbn [app greedy_star]. rewrite Pc, IH; auto.
Qed.

Lemma greedy_plus_backtrack p w u s (k : text -> option A) x :
  w <> [] -> forallb p (w ++ u) = true -> stops p s = true ->
  (forall u1 u2, u = u1 ++ u2 -> u1 <> [] -> k (u2 ++ s) = None) ->
  k (u ++ s) = Some x ->
  greedy_plus p (w ++ u ++ s) k = Some x.
Proof.
  destruct w as [|c w]; [tauto|]; intros _ Hwu Hs Hk Hx.
  cbn [app] in Hwu; simpl in Hwu; apply andb_true_iff in Hwu as [Pc Hwu].
  cbn [app greedy_plus]. rewrite Pc.
  apply greedy_star_backtrack; auto.
Qed.

Lemma greedy_plus_max p w s (k : text -> option A) x :
  w <> [] -> forallb p w = true -> stops p s = true ->
  k s = Some x -> greedy_plus p (w ++ s) k = Some x.
Proof.
  intros Hne Hw Hs Hx.
  apply (@greedy_plus_backtrack p w [] s k x); auto.
  - rewrite app_nil_r; auto.
  - intros [|? ?] u2 E; [tauto | discriminate].
Qed.

Lemma lazy_star_skip p u s (k : text -> option A) x :
  forallb p u = true ->
  (forall u1 u2, u = u1 ++ u2 -> u2 <> [] -> k (u2 ++ s) = None) ->
  k s = Some x ->
  lazy_star p (u ++ s) k = Some x.
Proof.
  induction u as [|c u IH]; intros Hu Hk Hx.
  - cbn [app]. destruct s; cbn [lazy_star]; rewrite Hx; reflexivity.
  - simpl in Hu; apply andb_true_iff in Hu as [Pc Hu].
    cbn [app lazy_star].
    assert (E : k ((c :: u) ++ s) = None)
      by (apply (Hk [] (c :: u)); [reflexivity | discriminate]).
    cbn [app] in E. rewrite E, Pc. apply IH; auto.
    intros u1 u2 -> Hne. apply (Hk (c :: u1) u2); auto.
Qed.

(** A pattern that matches nothing at the start of [s] fails there, whatever
    follows it in the pattern. *)
Lemma rmatch_none r s g (k : text -> groups -> option A) :
  (forall w s' g', s = w ++ s' -> ~ matches r w g g') ->
  rmatch r s g k = None.
Proof.
  intros H. destruct (rmatch r s g k) as [x|] eqn:E; auto.
  apply rmatch_sound in E as (w & s' & g' & -> & M & _).
  exfalso; eapply H; eauto.
Qed.
End Priority.

(** ** Character classes *)

Lemma space_not_word (c : ascii) : is_space c = true -> is_word c = false.
Proof.
  destruct c as [[] [] [] [] [] [] [] []]; vm_compute; congruence.
Qed.

Lemma run_unique p (a a' : text) c c' X X' :
  forallb p a = true -> forallb p a' = true -> p c = false -> p c' = false ->
  a ++ c :: X = a' ++ c' :: X' -> a = a' /\ c = c' /\ X = X'.
Proof.
  revert a'; induction a as [|x a IH]; intros [|x' a'] Ha Ha' Pc Pc' E;
    simpl in *.
  - injection E as -> ->; auto.
  - injection E as -> _. apply andb_true_iff in Ha' as [Px _]. congruence.
  - injection E as -> _. apply andb_true_iff in Ha as [Px _]. congruence.
  - injection E as -> E.
    apply andb_true_iff in Ha as [_ Ha]; apply andb_true_iff in Ha' as [_ Ha'].
    destruct (IH a' Ha Ha' Pc Pc' E) as (-> & -> & ->); auto.
Qed.

(** ** The extensions *)

Lemma is_extension_In (e : text) : is_extension e = true <-> In e extensions.
Proof.
  unfold is_extension. rewrite existsb_exists. split.
  - intros (x & Hx & E). apply text_eqb_eq in E; subst; auto.
  - intros H; exists e; split; auto. apply text_eqb_refl.
Qed.

Lemma extension_chars (e : text) :
  is_extension e = true ->
  forallb (not_char ".") e = true /\ forallb (not_char nl) e = true
  /\ forallb is_word e = true /\ e <> [].
Proof.
  intros H; apply is_extension_In in H. simpl in H.
  repeat destruct H as [<-|H]; try contradiction;
    (repeat split; [reflexivity .. | discriminate]).
Qed.

Lemma extension_matches e w g g' :
  matches extension w g g' -> e = w -> is_extension e = true /\ g' = g.
Proof.
  unfold extension. intros M ->.
  repeat match goal with
  | H : matches (Alt _ _) _ _ _ |- _ => inversion H; subst; clear H
  | H : matches (Seq _ _) _ _ _ |- _ => inversion H; subst; clear H
  | H : matches (Opt _) _ _ _ |- _ => inversion H; subst; clear H
  | H : matches (Lit _) _ _ _ |- _ => inversion H; subst; clear H
  end; split; reflexivity.
Qed.

Section ExtensionRuns.
Variable A : Type.

(** On a recognised extension followed by a newline, the group of
    extensions hands the newline to the rest of the pattern, when that
    rest asks for a newline first ([js] also starts [json]). *)
Lemma rmatch_extension e X g (k : text -> groups -> option A) x :
  is_extension e = true ->
  (forall c s g', c <> nl -> k (c :: s) g' = None) ->
  k (nl :: X) g = Some x ->
  rmatch extension (e ++ nl :: X) g k = Some x.
Proof.
  intros H Hfail Hk; apply is_extension_In in H. simpl in H.
  unfold nl in *.
  repeat destruct H as [<-|H]; try contradiction;
    cbv [extension rmatch strip_prefix str list_ascii_of_string app
         Ascii.eqb Bool.eqb];
    rewrite ?Hfail by (intro; discriminate); rewrite Hk; reflexivity.
Qed.
End ExtensionRuns.

(** ** The three headers and the closing fence, run on a block *)

Section Blocks.
Variable A : Type.
Implicit Type k : text -> groups -> option A.

Lemma rmatch_closing body rest g k x :
  fence_free body = true ->
  k rest (set_group 8 body g) = Some x ->
  rmatch closing (nl :: body ++ fence ++ rest) g k = Some x.
Proof.
  intros Hb Hk. unfold closing. cbn [rmatch strip_prefix].
  rewrite Ascii.eqb_refl.
  apply lazy_star_skip.
  - clear; induction body; simpl; auto.
  - intros u1 u2 E Hne.
    rewrite (@fence_free_no_start body u1 u2 (fence ++ rest) Hb E Hne).
    reflexivity.
  - rewrite strip_prefix_app, firstn_consumed. exact Hk.
Qed.

Lemma rmatch_closing_needs_newline c s g k :
  c <> nl -> rmatch closing (c :: s) g k = None.
Proof.
  intros H. unfold closing. cbn [rmatch strip_prefix].
  destruct (Ascii.eqb nl c) eqn:E; auto.
  apply Ascii.eqb_eq in E; congruence.
Qed.

Lemma rmatch_header_v0 language ws path X g k x :
  language <> [] -> forallb is_word language = true ->
  ws <> [] -> forallb is_space ws = true ->
  path <> [] -> forallb (not_char dquote) path = true ->
  k X (set_group 2 path (set_group 1 language g)) = Some x ->
  rmatch header_v0 (language ++ ws ++ file_eq ++ path ++ dquote :: X) g k
  = Some x.
Proof.
  intros Hl Hlw Hs Hsw Hp Hpq Hk.
  unfold header_v0. cbn [rmatch].
  apply greedy_plus_max; auto.
  { destruct ws as [|c ws]; [tauto|]. simpl in Hsw.
    apply andb_true_iff in Hsw as [Hc _]. cbn [app stops].
    rewrite (space_not_word _ Hc). reflexivity. }
  apply greedy_plus_max; auto.
  rewrite strip_prefix_app.
  apply greedy_plus_max; auto.
  cbn [strip_prefix]. rewrite Ascii.eqb_refl.
  rewrite !firstn_consumed. exact Hk.
Qed.

Lemma dot_not_here u X :
  forallb (not_char ".") u = true ->
  strip_prefix (str ".") (u ++ nl :: X) = None.
Proof.
  destruct u as [|c u]; [reflexivity|].
  simpl; intros H; apply andb_true_iff in H as [H _].
  unfold not_char in H; apply negb_true_iff in H.
  rewrite Ascii.eqb_sym, H. reflexivity.
Qed.

(** [[^\n]+\.(ext)] on [stem.ext] and a newline: the run takes the whole
    line and backs off to the last dot. *)
Lemma rmatch_dotted n m stem ext X g k x :
  stem <> [] -> forallb (not_char nl) stem = true ->
  is_extension ext = true ->
  (forall c s g', c <> nl -> k (c :: s) g' = None) ->
  k (nl :: X) (set_group n (dotted stem ext) (set_group m ext g)) = Some x ->
  rmatch (Group n (Plus (not_char nl) ;; Lit (str ".") ;; Group m extension))
    (stem ++ str "." ++ ext ++ nl :: X) g k = Some x.
Proof.
  intros Hs Hsn He Hfail Hk.
  rewrite (app_assoc (str ".") ext (nl :: X)).
  destruct (extension_chars _ He) as (Hdot & Hnl & _ & _).
  cbn [rmatch].
  apply greedy_plus_backtrack; auto.
  - rewrite !forallb_app, Hsn, Hnl. reflexivity.
  - intros [|c u1] u2 E Hne; [tauto|]. injection E as _ E.
    rewrite E, forallb_app in Hdot. apply andb_true_iff in Hdot as [_ Hdot].
    rewrite dot_not_here; auto.
  - rewrite <- app_assoc, strip_prefix_app.
    apply rmatch_extension; [exact He | intros; apply Hfail; auto |].
    rewrite firstn_consumed.
    replace (stem ++ str "." ++ ext ++ nl :: X)
      with (dotted stem ext ++ nl :: X)
      by (unfold dotted; rewrite <- !app_assoc; reflexivity).
    rewrite firstn_consumed. exact Hk.
Qed.

Lemma rmatch_header_colon language stem ext X g k x :
  language <> [] -> forallb is_word language = true ->
  stem <> [] -> forallb (not_char nl) stem = true ->
  is_extension ext = true ->
  (forall c s g', c <> nl -> k (c :: s) g' = None) ->
  k (nl :: X)
    (set_group 4 (dotted stem ext)
       (set_group 5 ext (set_group 3 language g))) = Some x ->
  rmatch header_colon
    (language ++ str ":" ++ stem ++ str "." ++ ext ++ nl :: X) g k
  = Some x.
Proof.
  intros Hl Hlw Hs Hsn He Hfail Hk.
  unfold header_colon.
  set (r4 := Group 4 _). cbn [rmatch].
  apply greedy_plus_max; auto.
  rewrite strip_prefix_app, firstn_consumed.
  subst r4. apply rmatch_dotted; auto.
Qed.

Lemma rmatch_header_direct stem ext X g k x :
  stem <> [] -> forallb (not_char nl) stem = true ->
  is_extension ext = true ->
  (forall c s g', c <> nl -> k (c :: s) g' = None) ->
  k (nl :: X) (set_group 6 (dotted stem ext) (set_group 7 ext g)) = Some x ->
  rmatch header_direct (stem ++ str "." ++ ext ++ nl :: X) g k = Some x.
Proof. intros; unfold header_direct; apply rmatch_dotted; auto. Qed.
End Blocks.

(** ** What the headers match *)

Ltac invert_matches :=
  repeat match goal with
  | H : matches (Seq _ _) _ _ _ |- _ => inversion H; subst; clear H
  | H : matches (Group _ _) _ _ _ |- _ => inversion H; subst; clear H
  | H : matches (Plus _) _ _ _ |- _ => inversion H; subst; clear H
  | H : matches (LazyStar _) _ _ _ |- _ => inversion H; subst; clear H
  | H : matches (Lit _) _ _ _ |- _ => inversion H; subst; clear H
  end.

Lemma header_v0_inv w g g' :
  matches header_v0 w g g' ->
  exists language ws path,
    w = language ++ ws ++ file_eq ++ path ++ [dquote]
    /\ language <> [] /\ forallb is_word language = true
    /\ ws <> [] /\ forallb is_space ws = true
    /\ path <> [] /\ forallb (not_char dquote) path = true
    /\ g' = set_group 2 path (set_group 1 language g).
Proof.
  unfold header_v0; intros M; invert_matches.
  eexists _, _, _; repeat split; eauto.
Qed.

Lemma header_colon_inv w g g' :
  matches header_colon w g g' ->
  exists language stem ext,
    w = language ++ str ":" ++ dotted stem ext
    /\ language <> [] /\ forallb is_word language = true
    /\ stem <> [] /\ forallb (not_char nl) stem = true
    /\ is_extension ext = true
    /\ g' = set_group 4 (dotted stem ext)
              (set_group 5 ext (set_group 3 language g)).
Proof.
  unfold header_colon; intros M; invert_matches.
  match goal with
  | H : matches extension ?e _ _ |- _ =>
      destruct (extension_matches H eq_refl) as [He ->]
  end.
  eexists _, _, _; repeat split; eauto.
Qed.

Lemma header_direct_inv w g g' :
  matches header_direct w g g' ->
  exists stem ext,
    w = dotted stem ext
    /\ stem <> [] /\ forallb (not_char nl) stem = true
    /\ is_extension ext = true
    /\ g' = set_group 6 (dotted stem ext) (set_group 7 ext g).
Proof.
  unfold header_direct; intros M; invert_matches.
  match goal with
  | H : matches extension ?e _ _ |- _ =>
      destruct (extension_matches H eq_refl) as [He ->]
  end.
  eexists _, _; repeat split; eauto.
Qed.

(** ** A header of one form is not taken for an earlier one *)

Lemma dropwhile_run p (l : text) d Z :
  forallb p l = true -> p d = false -> dropwhile p (l ++ d :: Z) = d :: Z.
Proof.
  induction l as [|c l IH]; simpl; intros Hl Hd.
  - rewrite Hd; reflexivity.
  - apply andb_true_iff in Hl as [-> Hl]; auto.
Qed.

Lemma dropwhile_app p (line Y : text) :
  forallb p line = false ->
  dropwhile p (line ++ Y) = dropwhile p line ++ Y /\ dropwhile p line <> [].
Proof.
  induction line as [|c line IH]; simpl; [discriminate|].
  destruct (p c); simpl; auto. split; [reflexivity | discriminate].
Qed.

(** A line without a language token does not begin like the attributed or
    the colon form. *)
Lemma no_language_token line Y (l : text) d Z :
  language_token line = false -> forallb is_word line = false ->
  l <> [] -> forallb is_word l = true ->
  is_space d = true \/ d = ":"%char ->
  line ++ Y <> l ++ d :: Z.
Proof.
  intros Hno Hline Hl Hlw Hd E.
  assert (Hdw : is_word d = false)
    by (destruct Hd as [Hd| ->]; [apply space_not_word; auto | reflexivity]).
  pose proof (f_equal (dropwhile is_word) E) as D.
  rewrite dropwhile_run in D by auto.
  destruct (@dropwhile_app is_word line Y Hline) as [D1 D2]. rewrite D1 in D.
  destruct l as [|c l]; [tauto|].
  destruct line as [|c0 line]; [discriminate|].
  injection E as -> _. simpl in Hlw; apply andb_true_iff in Hlw as [Hc _].
  unfold language_token in Hno. rewrite Hc in Hno.
  destruct (dropwhile is_word (c :: line)) as [|d' rest]; [tauto|].
  injection D as -> _. cbn [andb] in Hno.
  destruct Hd as [Hd| ->]; [rewrite Hd in Hno | rewrite orb_true_r in Hno];
    discriminate.
Qed.

Lemma dotted_not_word stem ext : forallb is_word (dotted stem ext) = false.
Proof.
  unfold dotted. rewrite forallb_app. cbn [str list_ascii_of_string app forallb].
  replace (is_word ".") with false by reflexivity.
  apply andb_false_r.
Qed.

Section Precedence.
Variable A : Type.
Implicit Type k : text -> groups -> option A.

Lemma header_v0_not_colon language Y g k :
  forallb is_word language = true ->
  rmatch header_v0 (language ++ str ":" ++ Y) g k = None.
Proof.
  intros Hl. apply rmatch_none. intros w s' g' E M.
  apply header_v0_inv in M
    as (l & ws & path & -> & Hne & Hlw & Hws & Hsp & _).
  destruct ws as [|c ws]; [tauto|].
  simpl in Hsp; apply andb_true_iff in Hsp as [Hc _].
  rewrite <- !app_assoc in E. cbn [str list_ascii_of_string app] in E.
  apply run_unique with (p := is_word) in E as (_ & <- & _); auto.
  - discriminate.
  - apply space_not_word; auto.
Qed.

Lemma header_v0_not_direct line Y g k :
  language_token line = false -> forallb is_word line = false ->
  rmatch header_v0 (line ++ Y) g k = None.
Proof.
  intros Hno Hline. apply rmatch_none. intros w s' g' E M.
  apply header_v0_inv in M
    as (l & ws & path & -> & Hne & Hlw & Hws & Hsp & _).
  destruct ws as [|c ws]; [tauto|].
  simpl in Hsp; apply andb_true_iff in Hsp as [Hc _].
  rewrite <- !app_assoc in E. cbn [app] in E.
  revert E. apply no_language_token; auto.
Qed.

Lemma header_colon_not_direct line Y g k :
  language_token line = false -> forallb is_word line = false ->
  rmatch header_colon (line ++ Y) g k = None.
Proof.
  intros Hno Hline. apply rmatch_none. intros w s' g' E M.
  apply header_colon_inv in M
    as (l & stem & ext & -> & Hne & Hlw & _).
  rewrite <- !app_assoc in E. cbn [str list_ascii_of_string app] in E.
  revert E. apply no_language_token; auto.
Qed.
End Precedence.

(** ** Each well-formed block is one match of the pattern *)

Ltac split_wf H :=
  repeat match type of H with
  | _ && _ = true => let H' := fresh "W" in apply andb_true_iff in H as [H H']
  end.

Lemma nonempty_ne (s : text) : nonempty s = true -> s <> [].
Proof. destruct s; [discriminate | discriminate]. Qed.

Lemma final_needs_newline c s g :
  c <> nl ->
  rmatch closing (c :: s) g
    (fun s' g' =>
       Some (map (fun i => group i g') (seq 1 (group_count pattern)), s'))
  = None.
Proof. apply rmatch_closing_needs_newline. Qed.

Ltac right_assoc :=
  repeat (rewrite <- app_assoc || rewrite <- app_comm_cons).

Lemma match_at_attributed language ws path body rest :
  well_formed (Attributed language ws path body) = true ->
  match_at pattern (render_segment (Attributed language ws path body) ++ rest)
  = Some ([language; path; []; []; []; []; []; body], rest).
Proof.
  cbn [well_formed render_segment]; intros W; split_wf W.
  right_assoc. unfold match_at, pattern.
  cbn [rmatch]. rewrite strip_prefix_app.
  unfold headers. cbn [rmatch].
  erewrite rmatch_header_v0; [reflexivity | auto using nonempty_ne ..|].
  apply rmatch_closing; auto.
Qed.

Lemma match_at_colon language stem ext body rest :
  well_formed (ColonForm language stem ext body) = true ->
  match_at pattern (render_segment (ColonForm language stem ext body) ++ rest)
  = Some ([[]; []; language; dotted stem ext; ext; []; []; body], rest).
Proof.
  cbn [well_formed render_segment]; intros W; split_wf W.
  right_assoc. unfold match_at, pattern.
  cbn [rmatch]. rewrite strip_prefix_app.
  unfold headers. cbn [rmatch].
  rewrite header_v0_not_colon by auto.
  unfold dotted. right_assoc.
  erewrite rmatch_header_colon; [reflexivity | auto using nonempty_ne ..| |].
  - intros; apply rmatch_closing_needs_newline; auto.
  - apply rmatch_closing; auto.
Qed.

Lemma match_at_direct stem ext body rest :
  well_formed (DirectForm stem ext body) = true ->
  match_at pattern (render_segment (DirectForm stem ext body) ++ rest)
  = Some ([[]; []; []; []; []; dotted stem ext; ext; body], rest).
Proof.
  cbn [well_formed render_segment]; intros W; split_wf W.
  match goal with
  | H : negb (language_token _) = true |- _ => apply negb_true_iff in H
  end.
  right_assoc. unfold match_at, pattern.
  cbn [rmatch]. rewrite strip_prefix_app.
  unfold headers. cbn [rmatch].
  rewrite header_v0_not_direct, header_colon_not_direct
    by auto using dotted_not_word.
  unfold dotted. right_assoc.
  erewrite rmatch_header_direct; [reflexivity | auto using nonempty_ne ..| |].
  - intros; apply rmatch_closing_needs_newline; auto.
  - apply rmatch_closing; auto.
Qed.

(** ** Every match of the pattern is a block in one of the three forms *)

Lemma fence_start_unpadded (t b : text) :
  t <> [] ->
  strip_prefix fence (t ++ fence ++ b) = None ->
  starts_with fence (t ++ [backtick; backtick]) = false.
Proof.
  unfold starts_with, fence, backtick; intros Hne.
  destruct t as [|c1 [|c2 [|c3 t]]]; [tauto| | |];
    cbn [app strip_prefix str list_ascii_of_string];
    repeat match goal with
    | |- context [Ascii.eqb ?a ?b] =>
        destruct (Ascii.eqb a b) eqn:?; cbn [app strip_prefix]
    end; auto; try discriminate.
Qed.

Lemma minimal_fence_free (code rest : text) :
  (forall w1 w2, code = w1 ++ w2 -> w2 <> [] ->
                 strip_prefix fence (w2 ++ fence ++ rest) = None) ->
  fence_free code = true.
Proof.
  unfold fence_free; rewrite negb_true_iff.
  induction code as [|c code IH]; intros H; [reflexivity|].
  cbn [app has_fence]. apply orb_false_iff; split.
  - apply (@fence_start_unpadded (c :: code) rest); [discriminate|].
    apply (H [] (c :: code)); [reflexivity | discriminate].
  - apply IH. intros w1 w2 -> Hne. apply (H (c :: w1) w2); auto.
Qed.

Lemma closing_inv A s g (k : text -> groups -> option A) x :
  rmatch closing s g k = Some x ->
  (forall s' g', k s' g' <> None) ->
  exists code rest,
    s = nl :: code ++ fence ++ rest /\ fence_free code = true
    /\ k rest (set_group 8 code g) = Some x.
Proof.
  unfold closing; cbn [rmatch]; intros H Hk.
  destruct (strip_prefix [nl] s) as [s1|] eqn:E1; [|discriminate].
  apply strip_prefix_Some in E1; subst s.
  apply lazy_star_first in H as (code & s2 & -> & _ & H & Hmin).
  destruct (strip_prefix fence s2) as [rest|] eqn:E2; [|discriminate].
  apply strip_prefix_Some in E2; subst s2.
  rewrite firstn_consumed in H.
  exists code, rest; repeat split; auto.
  apply (@minimal_fence_free code rest). intros w1 w2 E Hne.
  specialize (Hmin w1 w2 E Hne).
  destruct (strip_prefix fence (w2 ++ fence ++ rest)); auto.
  exfalso; eapply Hk; eauto.
Qed.

Lemma dotted_nonempty stem ext : dotted stem ext <> [].
Proof. unfold dotted; destruct stem; discriminate. Qed.

Lemma truthy_ne (s : text) : s <> [] -> truthy s = true.
Proof. destruct s; [tauto | reflexivity]. Qed.

(** A match starts with a fence, goes on with a header in one of the three
    forms and a newline, and ends at the first fence after that; its tuple
    names the file of the header. *)
Lemma match_at_inv s t rest :
  match_at pattern s = Some (t, rest) ->
  exists hdr f body,
    s = fence ++ hdr ++ nl :: body ++ fence ++ rest
    /\ fence_free body = true /\ f <> [] /\ length t = 8
    /\ named_by_fence t = Some (f, body) /\ resolved t = Some (f, body).
Proof.
  unfold match_at, pattern; cbn [rmatch]; intros H.
  destruct (strip_prefix fence s) as [s1|] eqn:E1; [|discriminate].
  apply strip_prefix_Some in E1; subst s.
  apply rmatch_sound in H as (hdr & s2 & g & -> & M & H).
  apply closing_inv in H as (body & rest' & -> & Hfree & H); [|discriminate].
  injection H as <- <-.
  exists hdr. unfold headers in M.
  inversion M as [| |? ? ? ? ? M1| ? ? ? ? ? M1| | | | |]; subst; clear M.
  - apply header_v0_inv in M1
      as (language & ws & path & -> & Hl & _ & _ & _ & Hp & _ & ->).
    exists path, body. rewrite <- ?app_assoc.
    cbv [named_by_fence resolved group_count pattern headers closing
         header_v0 header_colon header_direct extension Nat.add seq map
         group set_group Nat.eqb length].
    rewrite !truthy_ne by auto. repeat split; auto.
  - inversion M1 as [| |? ? ? ? ? M2| ? ? ? ? ? M2| | | | |]; subst; clear M1.
    + apply header_colon_inv in M2
        as (language & stem & ext & -> & Hl & _ & Hs & _ & _ & ->).
      exists (dotted stem ext), body. rewrite <- ?app_assoc.
      cbv [named_by_fence resolved group_count pattern headers closing
           header_v0 header_colon header_direct extension Nat.add seq map
           group set_group Nat.eqb length].
      change (truthy []) with false; cbn [andb].
      rewrite !truthy_ne by auto using dotted_nonempty.
      repeat split; auto using dotted_nonempty.
    + apply header_direct_inv in M2 as (stem & ext & -> & Hs & _ & _ & ->).
      exists (dotted stem ext), body. rewrite <- ?app_assoc.
      cbv [named_by_fence resolved group_count pattern headers closing
           header_v0 header_colon header_direct extension Nat.add seq map
           group set_group Nat.eqb length].
      change (truthy []) with false; cbn [andb].
      rewrite !truthy_ne by auto using dotted_nonempty.
      repeat split; auto using dotted_nonempty.
Qed.

(** A match takes at least the two fences and the newline: the scan never
    meets an empty match of the pattern. *)
Lemma match_at_consumes s t rest :
  match_at pattern s = Some (t, rest) -> length rest + 7 <= length s.
Proof.
  intros H. apply match_at_inv in H as (hdr & f & body & -> & _).
  rewrite !length_app. cbn [length]. rewrite !length_app.
  change (length fence) with 3. lia.
Qed.

Lemma findall_In content m :
  In m (findall pattern content) ->
  exists pre hdr f body rest,
    content = pre ++ fence ++ hdr ++ nl :: body ++ fence ++ rest
    /\ fence_free body = true /\ f <> [] /\ length m = 8
    /\ named_by_fence m = Some (f, body) /\ resolved m = Some (f, body).
Proof.
  intros H. apply scan_In in H as (pre & u & rest & -> & H).
  apply match_at_inv in H as (hdr & f & body & -> & H).
  exists pre, hdr, f, body, rest; auto.
Qed.

(** ** The loop *)

Lemma infer_from_language_default files language code :
  infer_from_language files language code
  = match default_filename language with
    | Some f => dict_set files f (strip code)
    | None => files
    end.
Proof.
  unfold infer_from_language, default_filename.
  repeat match goal with
  | |- context [if ?c then _ else _] => destruct c
  end; reflexivity.
Qed.

Lemma handle_match_resolved files m :
  length m = 8 ->
  handle_match files m
  = Ok match resolved m with
       | Some b => store files b
       | None => files
       end.
Proof.
  intros H.
  do 8 (destruct m as [|? m]; [discriminate|]).
  destruct m; [|discriminate].
  unfold handle_match, resolved. rewrite !infer_from_language_default.
  repeat match goal with
  | |- context [if ?c then _ else _] => destruct c
  end; try reflexivity;
  match goal with
  | |- context [default_filename ?l] => destruct (default_filename l)
  end; reflexivity.
Qed.

Lemma for_matches_fold ms : forall files,
  (forall m, In m ms -> length m = 8) ->
  for_matches files ms = Ok (fold_left store (resolve_all ms) files).
Proof.
  induction ms as [|m ms IH]; intros files H; [reflexivity|].
  cbn [for_matches resolve_all].
  rewrite handle_match_resolved by (apply H; left; reflexivity).
  rewrite IH by (intros; apply H; right; auto).
  destruct (resolved m); reflexivity.
Qed.

(** [parse_code_blocks] stores the blocks of the text in document order. *)
Lemma parse_code_blocks_fold content :
  parse_code_blocks content = Ok (fold_left store (classified content) []).
Proof.
  unfold parse_code_blocks, classified. apply for_matches_fold.
  intros m H. apply findall_In in H as (? & ? & ? & ? & ? & _ & _ & _ & H & _).
  exact H.
Qed.

(** ** The mapping *)

Lemma dict_get_set d k v k' :
  dict_get (dict_set d k v) k'
  = if text_eqb k' k then Some v else dict_get d k'.
Proof.
  induction d as [|[k0 v0] d IH]; cbn [dict_set dict_get].
  - reflexivity.
  - destruct (text_eqb k k0) eqn:E; cbn [dict_get].
    + apply text_eqb_eq in E; subst k0.
      destruct (text_eqb k' k); reflexivity.
    + destruct (text_eqb k' k0) eqn:E0.
      * apply text_eqb_eq in E0; subst k0.
        rewrite text_eqb_sym, E. reflexivity.
      * exact IH.
Qed.

Lemma dict_get_fold bs : forall d k,
  dict_get (fold_left store bs d) k
  = match last_named k bs with
    | Some body => Some (strip body)
    | None => dict_get d k
    end.
Proof.
  induction bs as [|[f body] bs IH]; intros d k; cbn [fold_left last_named].
  - reflexivity.
  - rewrite IH. destruct (last_named k bs); [reflexivity|].
    unfold store; cbn [fst snd]. rewrite dict_get_set.
    destruct (text_eqb k f); reflexivity.
Qed.

Lemma count_key_0 k d : dict_get d k = None -> count_key k d = 0.
Proof.
  unfold count_key. induction d as [|[k0 v0] d IH]; cbn [dict_get filter fst].
  - reflexivity.
  - destruct (text_eqb k k0); [discriminate | auto].
Qed.

Lemma count_key_set d k v k' :
  count_key k' d <= 1 -> 
  count_key k' (dict_set d k v)
  = if text_eqb k' k then 1 else count_key k' d.
Proof.
  unfold count_key.
  induction d as [|[k0 v0] d IH]; cbn [dict_set filter fst length].
  - destruct (text_eqb k' k); reflexivity.
  - destruct (text_eqb k k0) eqn:E; cbn [filter fst].
    + apply text_eqb_eq in E; subst k0.
      destruct (text_eqb k' k); cbn [length]; intros; lia.
    + destruct (text_eqb k' k0) eqn:E0; cbn [length].
      * apply text_eqb_eq in E0; subst k0.
        rewrite text_eqb_sym, E. intros H.
        rewrite text_eqb_sym, E in IH. rewrite IH; lia.
      * exact IH.
Qed.

Lemma count_key_fold bs : forall d k,
  count_key k d <= 1 ->
  count_key k (fold_left store bs d)
  = match last_named k bs with
    | Some _ => 1
    | None => count_key k d
    end.
Proof.
  induction bs as [|[f body] bs IH]; intros d k H; cbn [fold_left last_named].
  - reflexivity.
  - unfold store at 2; cbn [fst snd].
    rewrite IH by (rewrite count_key_set by auto; destruct (text_eqb k f); lia).
    destruct (last_named k bs); [reflexivity|].
    rewrite count_key_set by auto. destruct (text_eqb k f); reflexivity.
Qed.

Lemma last_named_app k a b :
  last_named k (a ++ b)
  = match last_named k b with
    | Some v => Some v
    | None => last_named k a
    end.
Proof.
  induction a as [|[f v] a IH]; cbn [app last_named].
  - destruct (last_named k b); reflexivity.
  - rewrite IH. destruct (last_named k b); reflexivity.
Qed.

(** ** A fence with a bare language opens no block *)

Lemma lstrip_spaces (a z : text) :
  forallb is_space a = true -> stops is_space z = true -> lstrip (a ++ z) = z.
Proof.
  induction a as [|c a IH]; cbn [app forallb]; intros Ha Hz.
  - destruct z as [|d z]; [reflexivity|].
    cbn [stops] in Hz; apply negb_true_iff in Hz.
    cbn [lstrip]; rewrite Hz; reflexivity.
  - apply andb_true_iff in Ha as [Hc Ha]. cbn [lstrip]. rewrite Hc; auto.
Qed.

Lemma lstrip_app (a z : text) :
  lstrip (a ++ z)
  = match lstrip a with
    | [] => lstrip z
    | _ :: _ => lstrip a ++ z
    end.
Proof.
  induction a as [|c a IH]; cbn [app lstrip]; [reflexivity|].
  destruct (is_space c); auto.
Qed.

Lemma prefix_runs_over (l a Y Z : text) c :
  l ++ Y = a ++ c :: Z -> strip_prefix l a = None -> In c l.
Proof.
  revert a; induction l as [|x l IH]; intros a E H; [discriminate|].
  destruct a as [|y a]; cbn [app] in E; injection E as -> E.
  - left; reflexivity.
  - cbn [strip_prefix] in H. rewrite Ascii.eqb_refl in H.
    right; eapply IH; eauto.
Qed.

Lemma word_not_nl (l : text) :
  forallb is_word l = true -> forallb (not_char nl) l = true.
Proof.
  induction l as [|c l IH]; cbn [forallb]; auto.
  intros H; apply andb_true_iff in H as [Hc Hl]. rewrite IH by auto.
  rewrite andb_true_r. unfold not_char.
  destruct (Ascii.eqb c nl) eqn:E; auto.
  apply Ascii.eqb_eq in E; subst c. discriminate.
Qed.

Lemma In_forallb (p : ascii -> bool) (l : text) c :
  forallb p l = true -> In c l -> p c = true.
Proof. intros H; apply (proj1 (forallb_forall p l) H). Qed.

Section BareLanguage.
Variable A : Type.
Implicit Type k : text -> groups -> option A.

Lemma headers_not_bare language body Z g k :
  forallb is_word language = true ->
  starts_with file_eq (lstrip body) = false ->
  rmatch headers (language ++ nl :: body ++ fence ++ Z) g k = None.
Proof.
  intros Hl Hb. apply rmatch_none. intros w s' g' E M.
  unfold headers in M.
  inversion M as [| |? ? ? ? ? M1| ? ? ? ? ? M1| | | | |]; subst; clear M;
    [|inversion M1 as [| |? ? ? ? ? M2| ? ? ? ? ? M2| | | | |];
      subst; clear M1].
  - apply header_v0_inv in M1
      as (l & ws & path & -> & _ & Hlw & Hws & Hsp & _).
    destruct ws as [|c ws]; [tauto|].
    cbn [forallb] in Hsp; apply andb_true_iff in Hsp as [Hc Hsp].
    rewrite <- !app_assoc in E. cbn [app] in E.
    apply run_unique with (p := is_word) in E as (_ & <- & E);
      auto using space_not_word.
    apply (f_equal lstrip) in E.
    rewrite (lstrip_spaces _ _ Hsp) in E by reflexivity.
    rewrite lstrip_app in E. unfold starts_with in Hb.
    destruct (lstrip body) as [|d b'] eqn:Eb.
    + discriminate.
    + destruct (strip_prefix file_eq (d :: b')) eqn:Ep; [discriminate|].
      symmetry in E.
      assert (H : In backtick file_eq).
      { eapply (@prefix_runs_over file_eq (d :: b') _
                  ([backtick; backtick] ++ Z) backtick); [exact E | exact Ep]. }
      cbv in H. intuition discriminate.
  - apply header_colon_inv in M2 as (l & stem & ext & -> & _ & Hlw & _).
    rewrite <- !app_assoc in E. cbn [str list_ascii_of_string app] in E.
    apply run_unique with (p := is_word) in E as (_ & E & _); auto.
    discriminate.
  - apply header_direct_inv in M2 as (stem & ext & -> & Hs & Hsn & _).
    unfold dotted in E. rewrite <- !app_assoc in E.
    cbn [str list_ascii_of_string app] in E.
    apply app_eq_app in E as [m [[E1 E2]|[E1 E2]]].
    + destruct m as [|c m]; cbn [app] in E2; injection E2 as E2 _.
      * discriminate.
      * subst c. assert (H : is_word "." = true)
          by (apply (@In_forallb is_word language _ Hl); rewrite E1;
              apply in_or_app;
              right; left; reflexivity).
        discriminate.
    + destruct m as [|c m]; cbn [app] in E2; injection E2 as E2 _.
      * discriminate.
      * subst c. assert (H : not_char nl nl = true)
          by (apply (@In_forallb (not_char nl) stem _ Hsn); rewrite E1;
              apply in_or_app;
              right; left; reflexivity).
        discriminate.
Qed.

Lemma headers_need_a_line Z g k : rmatch headers (nl :: Z) g k = None.
Proof.
  apply rmatch_none. intros w s' g' E M.
  unfold headers in M.
  inversion M as [| |? ? ? ? ? M1| ? ? ? ? ? M1| | | | |]; subst; clear M;
    [|inversion M1 as [| |? ? ? ? ? M2| ? ? ? ? ? M2| | | | |];
      subst; clear M1].
  - apply header_v0_inv in M1 as (l & ws & path & -> & Hl & Hlw & _).
    destruct l as [|c l]; [tauto|]. injection E as <- _. discriminate.
  - apply header_colon_inv in M2 as (l & stem & ext & -> & Hl & Hlw & _).
    destruct l as [|c l]; [tauto|]. injection E as <- _. discriminate.
  - apply header_direct_inv in M2 as (stem & ext & -> & Hs & Hsn & _).
    destruct stem as [|c stem]; [tauto|]. injection E as <- _. discriminate.
Qed.
End BareLanguage.

Lemma fence_free_cons c (b : text) :
  c <> backtick -> fence_free b = true -> fence_free (c :: b) = true.
Proof.
  unfold fence_free; rewrite !negb_true_iff; intros Hc Hb.
  cbn [app has_fence]. rewrite Hb, orb_false_r.
  unfold starts_with. rewrite fence_needs_backtick; auto.
Qed.

Lemma fence_free_word_line language body :
  forallb is_word language = true -> fence_free body = true ->
  fence_free (language ++ nl :: body) = true.
Proof.
  intros Hl Hb. induction language as [|c l IH]; cbn [app].
  - apply fence_free_cons; auto. discriminate.
  - cbn [forallb] in Hl; apply andb_true_iff in Hl as [Hc Hl].
    apply fence_free_cons; auto. intros ->. discriminate.
Qed.

Lemma fence_free_two_backticks (z : text) :
  z <> [] -> stops (Ascii.eqb backtick) z = true -> fence_free z = true ->
  fence_free (backtick :: backtick :: z) = true.
Proof.
  destruct z as [|c z]; [tauto|]; intros _ Hc Hz.
  cbn [stops] in Hc; apply negb_true_iff in Hc.
  unfold fence_free in *; rewrite negb_true_iff in *.
  cbn [app has_fence] in *. rewrite Hz, orb_false_r.
  unfold starts_with, fence. cbn [str list_ascii_of_string strip_prefix].
  unfold backtick in *. rewrite !Ascii.eqb_refl, Hc.
  destruct (Ascii.eqb "`" c); reflexivity.
Qed.

Lemma scan_bare language body rest :
  well_formed (BareLanguage language body) = true ->
  scan pattern 0 (render_segment (BareLanguage language body) ++ rest)
  = scan pattern 0 rest.
Proof.
  cbn [well_formed render_segment]; intros W; split_wf W.
  apply negb_true_iff in W0.
  right_assoc. change fence with (backtick :: [backtick; backtick]) at 1.
  cbn [app].
  rewrite scan_miss.
  2:{ unfold match_at, pattern. cbn [rmatch].
      change (backtick :: backtick :: backtick :: ?z) with (fence ++ z).
      rewrite strip_prefix_app. apply headers_not_bare; auto. }
  replace (backtick :: backtick :: language ++ nl :: body ++ fence ++ nl :: rest)
    with ((backtick :: backtick :: language ++ nl :: body)
            ++ fence ++ nl :: rest)
    by (cbn [app]; rewrite <- app_assoc; reflexivity).
  rewrite scan_prose.
  2:{ apply fence_free_two_backticks.
      - destruct language; discriminate.
      - destruct language as [|c l]; [reflexivity|].
        cbn [forallb] in W; apply andb_true_iff in W as [Hc _].
        cbn [app stops]. apply negb_true_iff.
        destruct (Ascii.eqb backtick c) eqn:E; auto.
        apply Ascii.eqb_eq in E; subst c. discriminate.
      - apply fence_free_word_line; auto. }
  change fence with (backtick :: [backtick; backtick]). cbn [app].
  rewrite scan_miss.
  2:{ unfold match_at, pattern. cbn [rmatch].
      change (backtick :: backtick :: backtick :: ?z) with (fence ++ z).
      rewrite strip_prefix_app. apply headers_need_a_line. }
  change (backtick :: backtick :: nl :: rest)
    with ([backtick; backtick; nl] ++ rest).
  apply scan_prose. reflexivity.
Qed.

(** ** The matches of a well-formed document are its blocks *)

Lemma render_segment_nonempty sg :
  block_of sg <> None -> render_segment sg <> [].
Proof. destruct sg; cbn; try tauto; discriminate. Qed.

Lemma scan_render doc tail :
  forallb well_formed doc = true ->
  scan pattern 0 (render doc ++ tail)
  = flat_map tuple_of doc ++ scan pattern 0 tail.
Proof.
  induction doc as [|sg doc IH]; cbn [forallb]; intros W; [reflexivity|].
  apply andb_true_iff in W as [Wsg W].
  unfold render; cbn [flat_map]. fold (render doc). rewrite <- !app_assoc.
  destruct sg as [t|language ws path body|language stem ext body
                 |stem ext body|language body].
  - cbn [render_segment tuple_of app]. rewrite scan_prose; auto.
  - pose proof (@match_at_attributed _ _ _ _ (render doc ++ tail) Wsg) as M.
    apply scan_match in M; [|apply render_segment_nonempty; discriminate].
    rewrite M. cbn [tuple_of app]. rewrite IH; auto.
  - pose proof (@match_at_colon _ _ _ _ (render doc ++ tail) Wsg) as M.
    apply scan_match in M; [|apply render_segment_nonempty; discriminate].
    rewrite M. cbn [tuple_of app]. rewrite IH; auto.
  - pose proof (@match_at_direct _ _ _ (render doc ++ tail) Wsg) as M.
    apply scan_match in M; [|apply render_segment_nonempty; discriminate].
    rewrite M. cbn [tuple_of app]. rewrite IH; auto.
  - rewrite scan_bare by auto. cbn [tuple_of app]. auto.
Qed.

Lemma scan_no_fence (s : text) : has_fence s = false -> scan pattern 0 s = [].
Proof.
  induction s as [|c s IH]; [reflexivity|].
  cbn [has_fence]; intros H; apply orb_false_iff in H as [H1 H2].
  rewrite scan_miss; auto.
  apply match_at_needs_fence. unfold starts_with in H1.
  destruct (strip_prefix fence (c :: s)); [discriminate | reflexivity].
Qed.

Lemma findall_render doc :
  forallb well_formed doc = true ->
  findall pattern (render doc) = flat_map tuple_of doc.
Proof.
  intros W. unfold findall.
  rewrite <- (app_nil_r (render doc)), scan_render by auto.
  apply app_nil_r.
Qed.

Lemma resolve_all_tuples doc :
  forallb well_formed doc = true ->
  resolve_all (flat_map tuple_of doc) = blocks doc.
Proof.
  induction doc as [|sg doc IH]; cbn [forallb]; intros W; [reflexivity|].
  apply andb_true_iff in W as [Wsg W]. specialize (IH W).
  destruct sg; cbn [flat_map tuple_of app blocks block_of resolve_all];
    auto; cbn [well_formed] in Wsg; split_wf Wsg;
    unfold resolved;
    repeat match goal with
    | H : nonempty ?s = true |- _ =>
        change (nonempty s) with (truthy s) in H; rewrite H; clear H
    end; cbn [truthy andb];
    rewrite ?(truthy_ne (@dotted_nonempty _ _)); rewrite IH; reflexivity.
Qed.

(** On a well-formed document the function stores the blocks in order. *)
Lemma parse_render doc :
  forallb well_formed doc = true ->
  parse_code_blocks (render doc) = Ok (fold_left store (blocks doc) []).
Proof.
  intros W. rewrite parse_code_blocks_fold. unfold classified.
  rewrite findall_render, resolve_all_tuples; auto.
Qed.

(** ** [strip] takes whitespace off both ends and nothing else *)

Lemma lstrip_spec (s : text) :
  exists l, s = l ++ lstrip s /\ all_space l = true
            /\ stops is_space (lstrip s) = true.
Proof.
  induction s as [|c s (l & E & Hl & Hs)]; cbn [lstrip].
  - exists []; auto.
  - destruct (is_space c) eqn:Hc.
    + exists (c :: l); cbn [app all_space forallb]. rewrite Hc.
      repeat split; auto. f_equal; exact E.
    + exists []; cbn [stops]. rewrite Hc; auto.
Qed.

Lemma all_space_rev (l : text) : all_space l = true -> all_space (rev l) = true.
Proof.
  unfold all_space. rewrite !forallb_forall.
  intros H x Hx. apply H. apply in_rev; auto.
Qed.

Lemma rstrip_spec (s : text) :
  exists r, s = rstrip s ++ r /\ all_space r = true
            /\ stops is_space (rev (rstrip s)) = true.
Proof.
  unfold rstrip. destruct (lstrip_spec (rev s)) as (l & E & Hl & Hs).
  exists (rev l). rewrite rev_involutive. repeat split; auto using all_space_rev.
  rewrite <- rev_app_distr, <- E, rev_involutive. reflexivity.
Qed.

Lemma strip_spec (s : text) :
  exists l r,
    s = l ++ strip s ++ r /\ all_space l = true /\ all_space r = true
    /\ stops is_space (strip s) = true
    /\ stops is_space (rev (strip s)) = true.
Proof.
  unfold strip.
  destruct (lstrip_spec s) as (l & E & Hl & Hs).
  destruct (rstrip_spec (lstrip s)) as (r & E' & Hr & Hs').
  exists l, r. repeat split; auto.
  - rewrite <- E'. exact E.
  - destruct (rstrip (lstrip s)) as [|c t] eqn:R; [reflexivity|].
    rewrite E' in Hs. exact Hs.
Qed.

Lemma lstrip_all_space (s : text) : all_space s = true -> lstrip s = [].
Proof.
  induction s as [|c s IH]; cbn [all_space forallb lstrip]; auto.
  intros H; apply andb_true_iff in H as [-> H]; auto.
Qed.

Lemma strip_all_space (s : text) : all_space s = true -> strip s = [].
Proof. intros H; unfold strip. rewrite lstrip_all_space; auto. Qed.

(** ** Blocks of a document and the entry each one leaves *)

Lemma blocks_app a b : blocks (a ++ b) = blocks a ++ blocks b.
Proof.
  induction a as [|sg a IH]; cbn [app blocks]; [reflexivity|].
  destruct (block_of sg); cbn [app]; rewrite IH; reflexivity.
Qed.

Lemma last_named_In k v bs : last_named k bs = Some v -> In (k, v) bs.
Proof.
  induction bs as [|[f b] bs IH]; cbn [last_named]; [discriminate|].
  destruct (last_named k bs) as [v'|].
  - intros [= ->]; right; auto.
  - destruct (text_eqb k f) eqn:E; [|discriminate].
    apply text_eqb_eq in E; subst f. intros [= ->]; left; reflexivity.
Qed.

Lemma resolve_all_In b ms :
  In b (resolve_all ms) -> exists m, In m ms /\ resolved m = Some b.
Proof.
  induction ms as [|m ms IH]; cbn [resolve_all]; [intros []|].
  destruct (resolved m) as [b'|] eqn:E.
  - intros [<-|H].
    + exists m; split; [left; reflexivity | exact E].
    + destruct (IH H) as (m' & Hm & R). exists m'; split; [right|]; auto.
  - intros H. destruct (IH H) as (m' & Hm & R). exists m'; split; [right|]; auto.
Qed.

(** A block of a well-formed document leaves its file name mapped to its
    stripped body, unless a later block takes the name. *)
Lemma block_entry before sg after f body :
  forallb well_formed (before ++ sg :: after) = true ->
  block_of sg = Some (f, body) ->
  last_named f (blocks after) = None ->
  exists files,
    parse_code_blocks (render (before ++ sg :: after)) = Ok files
    /\ dict_get files f = Some (strip body).
Proof.
  intros W B L. rewrite parse_render by auto.
  eexists; split; [reflexivity|].
  rewrite dict_get_fold, blocks_app. cbn [blocks]. rewrite B.
  rewrite last_named_app. cbn [last_named]. rewrite L, text_eqb_refl.
  reflexivity.
Qed.

(** ** A fence with nothing to close it *)

Lemma scan_unterminated (rest : text) :
  has_fence rest = false -> scan pattern 0 (fence ++ rest) = [].
Proof.
  intros H. destruct (scan pattern 0 (fence ++ rest)) as [|m ms] eqn:E; auto.
  exfalso.
  assert (Hm : In m (findall pattern (fence ++ rest)))
    by (unfold findall; rewrite E; left; reflexivity).
  apply findall_In in Hm as (pre & hdr & f & body & rest' & Eq & _).
  assert (Hlen : length fence <= length (pre ++ fence ++ hdr ++ nl :: body))
    by (rewrite !length_app; lia).
  replace (pre ++ fence ++ hdr ++ nl :: body ++ fence ++ rest')
    with ((pre ++ fence ++ hdr ++ nl :: body) ++ fence ++ rest') in Eq
    by (right_assoc; reflexivity).
  apply app_eq_app in Eq as [m' [[E1 E2]|[E1 E2]]].
  - apply (f_equal (@length ascii)) in E1. rewrite length_app in E1.
    assert (m' = []) by (destruct m'; [reflexivity | cbn [length] in E1; lia]).
    subst m'. cbn [app] in E2. rewrite <- E2 in H.
    pose proof (has_fence_app_fence [] rest') as F. cbn [app] in F.
    rewrite F in H. discriminate.
  - rewrite E2 in H. rewrite has_fence_app_fence in H. discriminate.
Qed.

(** ** A colon form with an extension the pattern does not know *)

Lemma ends_with_app (a sfx : text) : ends_with sfx (a ++ sfx) = true.
Proof.
  unfold ends_with, starts_with. rewrite rev_app_distr, strip_prefix_app.
  reflexivity.
Qed.

Lemma ends_with_extension_dotted stem ext :
  is_extension ext = true -> ends_with_extension (dotted stem ext) = true.
Proof.
  intros H. unfold ends_with_extension. apply existsb_exists.
  exists ext; split; [apply is_extension_In; auto|].
  unfold dotted. apply ends_with_app.
Qed.

Section Unrecognised.
Variable A : Type.
Implicit Type k : text -> groups -> option A.

Lemma rmatch_none_after r s g k :
(forall w s' g', s = w ++ s' -> matches r w g g' -> k s' g' = None) ->
rmatch r s g k = None.
Proof.
intros H. destruct (rmatch r s g k) as [x|] eqn:E; auto.
apply rmatch_sound in E as (w & s' & g' & -> & M & K).
rewrite (H w s' g' eq_refl M) in K. discriminate.
Qed.

Lemma rmatch_closing_nil g k : rmatch closing [] g k = None.
Proof. reflexivity. Qed.

Lemma headers_not_unknown_extension language path Z k :
forallb is_word language = true ->
forallb (not_char nl) path = true ->
ends_with_extension path = false ->
rmatch headers (language ++ str ":" ++ path ++ nl :: Z) []
  (fun s' g' => rmatch closing s' g' k) = None.
Proof.
intros Hl Hp He. apply rmatch_none_after. intros w s' g' E M.
destruct s' as [|c s']; [reflexivity|].
destruct (Ascii.eqb c nl) eqn:Ec;
  [apply Ascii.eqb_eq in Ec; subst c
  |apply rmatch_closing_needs_newline; apply Ascii.eqb_neq; auto].
exfalso. cbn [str list_ascii_of_string app] in E.
unfold headers in M.
inversion M as [| |? ? ? ? ? M1| ? ? ? ? ? M1| | | | |]; subst; clear M;
  [|inversion M1 as [| |? ? ? ? ? M2| ? ? ? ? ? M2| | | | |];
    subst; clear M1].
- apply header_v0_inv in M1
    as (l & ws & pth & -> & _ & Hlw & Hws & Hsp & _).
  destruct ws as [|d ws]; [tauto|].
  cbn [forallb] in Hsp; apply andb_true_iff in Hsp as [Hd _].
  rewrite <- !app_assoc in E. cbn [app] in E.
  apply run_unique with (p := is_word) in E as (_ & <- & _);
    auto using space_not_word.
  discriminate.
- apply header_colon_inv in M2
    as (l & stem & ext & -> & _ & Hlw & _ & Hsn & Hext & _).
  rewrite <- !app_assoc in E. cbn [str list_ascii_of_string app] in E.
  apply run_unique with (p := is_word) in E as (_ & _ & E); auto.
  apply run_unique with (p := not_char nl) in E as (E & _); auto.
  + subst path. rewrite ends_with_extension_dotted in He by auto.
    discriminate.
  + unfold dotted. rewrite !forallb_app, Hsn.
    destruct (extension_chars _ Hext) as (_ & -> & _). reflexivity.
- apply header_direct_inv in M2 as (stem & ext & -> & _ & Hsn & Hext & _).
  replace (language ++ ":"%char :: path ++ nl :: Z)
    with ((language ++ ":"%char :: path) ++ nl :: Z) in E
    by (rewrite <- app_assoc; reflexivity).
  apply run_unique with (p := not_char nl) in E as (E & _); auto.
  + unfold dotted in E. cbn [str list_ascii_of_string app] in E.
    apply app_eq_app in E as [m [[E1 E2]|[E1 E2]]].
    * destruct m as [|d m]; cbn [app] in E2; injection E2 as E2 E3.
      -- discriminate.
      -- subst d. assert (H : is_word "." = true)
           by (apply (@In_forallb is_word language _ Hl); rewrite E1;
               apply in_or_app; right; left; reflexivity).
         discriminate.
    * destruct m as [|d m]; cbn [app] in E2; injection E2 as E2 E3.
      -- discriminate.
      -- subst path.
         change (m ++ "."%char :: ext) with (dotted m ext) in He.
         rewrite ends_with_extension_dotted in He by auto. discriminate.
  + rewrite forallb_app, (word_not_nl _ Hl). cbn [forallb]. rewrite Hp.
    reflexivity.
  + unfold dotted. rewrite !forallb_app, Hsn.
    destruct (extension_chars _ Hext) as (_ & -> & _). reflexivity.
Qed.
End Unrecognised.

Lemma match_at_unknown_extension language path body rest :
  forallb is_word language = true ->
  forallb (not_char nl) path = true ->
  ends_with_extension path = false ->
  match_at pattern
    (fence ++ language ++ str ":" ++ path ++ nl :: body ++ fence ++ rest)
  = None.
Proof.
  intros Hl Hp He. unfold match_at, pattern. cbn [rmatch].
  rewrite strip_prefix_app. apply headers_not_unknown_extension; auto.
Qed.

(** ** The branches for a bare language are never reached *)

(** Whatever the text, every match the pattern finds names its file in the
    fence: the two branches of the loop that call on the table of default
    names are dead. *)
Lemma fallback_unreachable content m :
  In m (findall pattern content) -> resolved m = named_by_fence m.
Proof.
  intros H. apply findall_In in H
    as (? & ? & ? & ? & ? & _ & _ & _ & _ & -> & ->). reflexivity.
Qed.

(** A block with a bare language leaves the result as it is without it,
    [typescript] and the other languages of the table included. *)
Lemma bare_language_dropped before language body after :
  forallb well_formed (before ++ BareLanguage language body :: after) = true ->
  parse_code_blocks (render (before ++ BareLanguage language body :: after))
  = parse_code_blocks (render (before ++ after)).
Proof.
  intros W. rewrite parse_render by auto.
  rewrite forallb_app in W. cbn [forallb] in W.
  apply andb_true_iff in W as [W1 W2]. apply andb_true_iff in W2 as [_ W2].
  rewrite parse_render by (rewrite forallb_app, W1, W2; reflexivity).
  rewrite !blocks_app. reflexivity.
Qed.

(** The pattern has the eight groups the loop unpacks; a tuple of another
    length would raise. *)
Lemma pattern_has_eight_groups : group_count pattern = 8.
Proof. reflexivity. Qed.

Example unpacking_can_fail :
  handle_match [] [str "tsx"; str "app/page.tsx"] = Raise ValueError.
Proof. reflexivity. Qed.

(** [[^\n]+] asks for a character before the dot: after a colon followed at
    once by the dot, the colon alternative fails and the whole fence line is
    taken as a direct file name. *)
Example colon_form_needs_a_stem :
  parse_code_blocks stemless_text = Ok [(str "py:.py", str "x = 1")].
Proof. vm_compute; reflexivity. Qed.

(** ** [create_files]: what holds and what does not *)

Section CreateFilesFacts.
Variable fs : Type.
Variable joinpath : text -> text -> text.
Variable parent : text -> text.
Variable mkdir_parents : text -> fs -> option exn * fs.
Variable write_text : text -> text -> fs -> option exn * fs.


(** A [mkdir] that fails ends the loop with its error; the entries after it
  are not looked at. *)
Lemma mkdir_failure_ends_loop base_path filename content items w e d :
mkdir_parents (parent (joinpath base_path filename)) (disk w) = (Some e, d) ->
write_entries joinpath parent mkdir_parents write_text base_path
  ((filename, content) :: items) w
= (Raised e, World d (console w)).
Proof. intros H. cbn [write_entries]. rewrite H. reflexivity. Qed.
End CreateFilesFacts.

(** * The claims *)

(** C1.  The table of default file names has [typescript], but on two blocks
    with the bare language [typescript] the function returns the empty
    mapping: the pattern has no alternative for a fence with a language
    alone, so no block reaches the branches that use the table.  The
    specification asks for one entry [index.ts] with the second body. *)
Theorem bare_typescript_blocks_dropped :
  default_filename (str "typescript") = Some (str "index.ts")
  /\ findall pattern two_typescript_text = []
  /\ parse_code_blocks two_typescript_text = Ok [].
Proof. repeat split; vm_compute; reflexivity. Qed.

(** C2.  For every text the function returns a mapping in which each file
    name has at most one entry: exactly one when some block resolves to the
    name, holding the stripped body of the last such block in document order,
    and none otherwise.  On three blocks naming [a.py], [b.py] and [a.py]
    again, the result has one entry for [a.py], with the body of the third
    block, and one for [b.py]. *)
Theorem last_write_wins :
  (forall content,
      exists files,
        parse_code_blocks content = Ok files
        /\ forall k,
             dict_get files k
             = option_map strip (last_named k (classified content))
             /\ count_key k files
                = match last_named k (classified content) with
                  | Some _ => 1
                  | None => 0
                  end)
  /\ parse_code_blocks overwrite_text
     = Ok [(str "a.py", str "second"); (str "b.py", str "other")].
Proof.
  split; [|vm_compute; reflexivity].
  intros content.
  rewrite parse_code_blocks_fold. eexists; split; [reflexivity|].
  intros k. rewrite dict_get_fold, count_key_fold by (cbn; lia).
  destruct (last_named k (classified content)); auto.
Qed.

(** C3.  In a document of prose and well-formed blocks, an attributed block
    (language token, whitespace, [file=] and the path in double quotes)
    leaves the quoted path mapped to its stripped body, unless a later block
    takes the same name; and the block [tsx file=app/page.tsx] of the
    specification gives exactly that one entry. *)
Theorem attributed_form :
  (forall before after language ws path body,
      forallb well_formed
        (before ++ Attributed language ws path body :: after) = true ->
      last_named path (blocks after) = None ->
      exists files,
        parse_code_blocks
          (render (before ++ Attributed language ws path body :: after))
        = Ok files
        /\ dict_get files path = Some (strip body))
  /\ parse_code_blocks page_text
     = Ok [(str "app/page.tsx", str "export default function Home(){}")].
Proof.
  split; [|vm_compute; reflexivity].
  intros before after language ws path body W L.
  apply block_entry; auto.
Qed.

Lemma attributed_form_witness :
  forallb well_formed page_doc = true
  /\ last_named (str "app/page.tsx") (blocks [Prose (lines [""; "Done."])])
     = None
  /\ exists files,
       parse_code_blocks (render page_doc) = Ok files
       /\ dict_get files (str "app/page.tsx")
          = Some (strip (lines ["export default function Home(){}"; ""])).
Proof.
  split; [reflexivity|]. split; [reflexivity|].
  apply (proj1 attributed_form
           [Prose (lines ["Here is the page:"; ""])]
           [Prose (lines [""; "Done."])]);
    reflexivity.
Defined.

(** C4.  In a document of prose and well-formed blocks, a colon-form block
    [lang:stem.ext] with a recognised extension leaves [stem.ext], the path
    after the colon, mapped to its stripped body, unless a later block takes
    the same name; [py:main.py] with body [print(1)] gives [main.py] mapped
    to [print(1)]; and when the path after the colon does not end with a dot
    and a recognised extension, the pattern does not match at that fence. *)
Theorem colon_form :
  (forall before after language stem ext body,
      forallb well_formed
        (before ++ ColonForm language stem ext body :: after) = true ->
      last_named (dotted stem ext) (blocks after) = None ->
      exists files,
        parse_code_blocks
          (render (before ++ ColonForm language stem ext body :: after))
        = Ok files
        /\ dict_get files (dotted stem ext) = Some (strip body))
  /\ parse_code_blocks main_text = Ok [(str "main.py", str "print(1)")]
  /\ (forall language path body rest,
         forallb is_word language = true ->
         forallb (not_char nl) path = true ->
         ends_with_extension path = false ->
         match_at pattern
           (fence ++ language ++ str ":" ++ path ++ nl :: body ++ fence ++ rest)
         = None)
  /\ parse_code_blocks ruby_text = Ok [].
Proof.
  split; [|split; [vm_compute; reflexivity|split; [|vm_compute; reflexivity]]].
  - intros before after language stem ext body W L.
    apply block_entry; auto.
  - intros; apply match_at_unknown_extension; auto.
Qed.

Lemma colon_form_witness :
  (forallb well_formed main_doc = true
   /\ last_named (dotted (str "main") (str "py")) (blocks []) = None
   /\ exists files,
        parse_code_blocks (render main_doc) = Ok files
        /\ dict_get files (dotted (str "main") (str "py"))
           = Some (strip (lines ["print(1)"; ""])))
  /\ (forallb is_word (str "rb") = true
      /\ forallb (not_char nl) (str "main.rb") = true
      /\ ends_with_extension (str "main.rb") = false
      /\ match_at pattern
           (fence ++ str "rb" ++ str ":" ++ str "main.rb"
              ++ nl :: lines ["puts 1"; ""] ++ fence ++ [])
         = None).
Proof.
  split.
  - split; [reflexivity|]. split; [reflexivity|].
    apply (proj1 colon_form
             [BareLanguage (str "bash") (lines ["pip install anvil"; ""])] []);
      reflexivity.
  - split; [reflexivity|]. split; [reflexivity|]. split; [reflexivity|].
    apply (proj1 (proj2 (proj2 colon_form))); reflexivity.
Defined.

(** C5.  In a document of prose and well-formed blocks, a block whose fence
    line is a bare path [stem.ext] with a recognised extension, not opening
    with a language token, leaves the fence line as it stands mapped to its
    stripped body, unless a later block takes the same name; and the fence
    [components/square.tsx] gives the key [components/square.tsx]. *)
Theorem direct_filename_form :
  (forall before after stem ext body,
      forallb well_formed (before ++ DirectForm stem ext body :: after) = true ->
      last_named (dotted stem ext) (blocks after) = None ->
      exists files,
        parse_code_blocks
          (render (before ++ DirectForm stem ext body :: after))
        = Ok files
        /\ dict_get files (dotted stem ext) = Some (strip body))
  /\ parse_code_blocks square_text
     = Ok [(str "components/square.tsx", str "...")].
Proof.
  split; [|vm_compute; reflexivity].
  intros before after stem ext body W L.
  apply block_entry; auto.
Qed.

Lemma direct_filename_form_witness :
  forallb well_formed square_doc = true
  /\ last_named (dotted (str "components/square") (str "tsx")) (blocks [])
     = None
  /\ exists files,
       parse_code_blocks (render square_doc) = Ok files
       /\ dict_get files (dotted (str "components/square") (str "tsx"))
          = Some (strip (lines ["..."; ""])).
Proof.
  split; [reflexivity|]. split; [reflexivity|].
  apply (proj1 direct_filename_form [Prose (lines ["The square:"; ""])] []);
    reflexivity.
Defined.

Lemma named_by_fence_code t f body :
  named_by_fence t = Some (f, body) -> nth 7 t [] = body.
Proof.
  do 8 (destruct t as [|? t]; [discriminate|]).
  destruct t; [|discriminate].
  unfold named_by_fence; cbn [nth].
  repeat match goal with
  | |- context [if ?c then _ else _] => destruct c
  end; congruence.
Qed.

(** C6.  A fence after which the text holds no three backticks adds nothing
    to the result of a well-formed document it follows; and every match the
    pattern finds in a text is an opening fence, a header, a newline, the
    body and a closing fence, where the body holds no fence, also when
    backticks follow it: the match ends at the first closing fence. *)
Theorem unterminated_fence_excluded :
  (forall doc rest,
      forallb well_formed doc = true -> has_fence rest = false ->
      parse_code_blocks (render doc ++ fence ++ rest)
      = parse_code_blocks (render doc))
  /\ (forall content m,
         In m (findall pattern content) ->
         exists pre hdr body rest,
           content = pre ++ fence ++ hdr ++ nl :: body ++ fence ++ rest
           /\ nth 7 m [] = body /\ fence_free body = true).
Proof.
  split.
  - intros doc rest W H. unfold parse_code_blocks.
    rewrite findall_render by auto. unfold findall.
    rewrite scan_render, scan_unterminated by auto.
    rewrite app_nil_r. reflexivity.
  - intros content m H.
    apply findall_In in H
      as (pre & hdr & f & body & rest & E & Hf & _ & _ & N & _).
    exists pre, hdr, body, rest; repeat split; auto.
    apply named_by_fence_code with (f := f); auto.
Qed.

Lemma unterminated_fence_excluded_witness :
  (forallb well_formed closed_doc = true
   /\ has_fence open_tail = false
   /\ parse_code_blocks (render closed_doc ++ fence ++ open_tail)
      = parse_code_blocks (render closed_doc))
  /\ (In [[]; []; []; []; []; str "a.py"; str "py"; lines ["x = 1"; ""]]
        (findall pattern two_closings_text)
      /\ exists pre hdr body rest,
           two_closings_text
           = pre ++ fence ++ hdr ++ nl :: body ++ fence ++ rest
           /\ nth 7 [[]; []; []; []; []; str "a.py"; str "py";
                     lines ["x = 1"; ""]] []
              = body
           /\ fence_free body = true).
Proof.
  split.
  - split; [reflexivity|]. split; [reflexivity|].
    apply (proj1 unterminated_fence_excluded); reflexivity.
  - split; [vm_compute; left; reflexivity|].
    apply (proj2 unterminated_fence_excluded).
    vm_compute; left; reflexivity.
Defined.

(** C7.  Every body in the mapping is the stripped text between the fences
    of a block of the document, the last one that resolves to the name: that
    text is the body with whitespace before and after it and nothing else,
    and the body neither starts nor ends with whitespace. *)
Theorem body_is_stripped_raw_text content files k b :
  parse_code_blocks content = Ok files ->
  dict_get files k = Some b ->
  exists pre hdr raw rest,
    content = pre ++ fence ++ hdr ++ nl :: raw ++ fence ++ rest
    /\ fence_free raw = true
    /\ last_named k (classified content) = Some raw
    /\ b = strip raw
    /\ exists l r,
         raw = l ++ b ++ r /\ all_space l = true /\ all_space r = true
         /\ stops is_space b = true /\ stops is_space (rev b) = true.
Proof.
  rewrite parse_code_blocks_fold. intros [= <-]. rewrite dict_get_fold.
  destruct (last_named k (classified content)) as [raw|] eqn:L;
    [|discriminate].
  intros [= <-]. pose proof (last_named_In _ _ L) as I.
  apply resolve_all_In in I as (m & Hm & R).
  apply findall_In in Hm
    as (pre & hdr & f & body & rest & E & Hf & _ & _ & _ & R').
  rewrite R in R'. injection R' as <- <-.
  exists pre, hdr, raw, rest. repeat split; auto.
  destruct (strip_spec raw) as (l & r & E' & Hl & Hr & H1 & H2).
  exists l, r; auto.
Qed.

Lemma body_is_stripped_raw_text_witness :
  parse_code_blocks padded_text
  = Ok [(str "a.py", lines ["x = 1"; ""; "  y = 2"])]
  /\ dict_get [(str "a.py", lines ["x = 1"; ""; "  y = 2"])] (str "a.py")
     = Some (lines ["x = 1"; ""; "  y = 2"])
  /\ exists pre hdr raw rest,
       padded_text = pre ++ fence ++ hdr ++ nl :: raw ++ fence ++ rest
       /\ fence_free raw = true
       /\ last_named (str "a.py") (classified padded_text) = Some raw
       /\ lines ["x = 1"; ""; "  y = 2"] = strip raw
       /\ exists l r,
            raw = l ++ lines ["x = 1"; ""; "  y = 2"] ++ r
            /\ all_space l = true /\ all_space r = true
            /\ stops is_space (lines ["x = 1"; ""; "  y = 2"]) = true
            /\ stops is_space (rev (lines ["x = 1"; ""; "  y = 2"])) = true.
Proof.
  split; [reflexivity|]. split; [reflexivity|].
  apply (@body_is_stripped_raw_text padded_text
           [(str "a.py", lines ["x = 1"; ""; "  y = 2"])] (str "a.py"));
    reflexivity.
Defined.

(** C8.  The function returns a mapping for every text and never raises;
    for a text without a fence the mapping is empty; and for a document of
    prose and well-formed segments the mapping holds the blocks in one of
    the three forms and leaves the others out. *)
Theorem never_raises :
  (forall content, exists files, parse_code_blocks content = Ok files)
  /\ (forall content,
         has_fence content = false -> parse_code_blocks content = Ok [])
  /\ (forall doc,
         forallb well_formed doc = true ->
         parse_code_blocks (render doc) = Ok (fold_left store (blocks doc) [])).
Proof.
  split; [|split].
  - intros content. rewrite parse_code_blocks_fold. eexists; reflexivity.
  - intros content H. unfold parse_code_blocks, findall.
    rewrite scan_no_fence by auto. reflexivity.
  - apply parse_render.
Qed.

Lemma never_raises_witness :
  (has_fence plain_text = false /\ parse_code_blocks plain_text = Ok [])
  /\ (forallb well_formed main_doc = true
      /\ parse_code_blocks (render main_doc)
         = Ok (fold_left store (blocks main_doc) [])).
Proof.
  split.
  - split; [reflexivity|].
    apply (proj1 (proj2 never_raises)); reflexivity.
  - split; [reflexivity|].
    apply (proj2 (proj2 never_raises)); reflexivity.
Defined.

(** C9.  On a disk where [out/a] is a regular file, [create_files] with the
    entries [a/b.txt] and [c.txt] under [out] raises the error of [mkdir]
    at the first entry: nothing is reported for it and [c.txt], which could
    be written, is never tried.  The [mkdir] call stands outside the [try];
    a failing write, inside it, is reported and the loop goes on, as for the
    entry [a] on a disk where [out/a] is a directory. *)
Theorem mkdir_failure_aborts :
  TinyFS.create_files two_files (str "out") (World blocked_disk [])
  = (Raised FileExistsError, World blocked_disk [Creating 2])
  /\ TinyFS.create_files [(str "a", str "x"); (str "c.txt", str "y")]
       (str "out") (World directory_disk [])
     = (Returned,
        World ((str "out/c.txt", Some (str "y")) :: directory_disk)
          [Creating 2; FailedToCreate (str "out/a") OSError;
           Created (str "out/c.txt")]).
Proof. split; vm_compute; reflexivity. Qed.

(** C10.  In a document of prose and well-formed blocks, a block in one of
    the three forms with a file name, whose body is empty or only
    whitespace, leaves that name mapped to the empty text, unless a later
    block takes the same name. *)
Theorem empty_body_still_creates_entry before sg after f body :
  forallb well_formed (before ++ sg :: after) = true ->
  block_of sg = Some (f, body) ->
  all_space body = true ->
  last_named f (blocks after) = None ->
  exists files,
    parse_code_blocks (render (before ++ sg :: after)) = Ok files
    /\ dict_get files f = Some [].
Proof.
  intros W B S L.
  destruct (block_entry before sg after W B L) as (files & E & G).
  exists files; split; auto. rewrite G, strip_all_space; auto.
Qed.

Lemma empty_body_still_creates_entry_witness :
  forallb well_formed blank_doc = true
  /\ block_of (ColonForm (str "py") (str "main") (str "py") [])
     = Some (str "main.py", [])
  /\ all_space [] = true
  /\ last_named (str "main.py")
       (blocks [DirectForm (str "notes") (str "md") (lines [""; ""])])
     = None
  /\ exists files,
       parse_code_blocks (render blank_doc) = Ok files
       /\ dict_get files (str "main.py") = Some [].
Proof.
  split; [reflexivity|]. split; [reflexivity|]. split; [reflexivity|].
  split; [reflexivity|].
  apply (@empty_body_still_creates_entry
           [Attributed (str "tsx") (str " ") (str "app/page.tsx")
              (lines [" "; ""])]
           (ColonForm (str "py") (str "main") (str "py") [])
           [DirectForm (str "notes") (str "md") (lines [""; ""])]
           (str "main.py") []);
    reflexivity.
Defined.

(** * Further properties *)

(** ** The order of the mapping *)

Lemma member_In (x : text) (s : list text) : member x s = true <-> In x s.
Proof.
  unfold member. rewrite existsb_exists. split.
  - intros (y & Hy & E). apply text_eqb_eq in E; subst; auto.
  - intros H; exists x; split; auto. apply text_eqb_refl.
Qed.

Lemma keys_dict_set d k v :
  map fst (dict_set d k v)
  = if member k (map fst d) then map fst d else map fst d ++ [k].
Proof.
  induction d as [|[k0 v0] d IH]; cbn [dict_set map fst member existsb];
    [reflexivity|].
  destruct (text_eqb k k0) eqn:E; cbn [map fst orb].
  - apply text_eqb_eq in E; subst; reflexivity.
  - fold (member k (map fst d)). rewrite IH.
    destruct (member k (map fst d)); reflexivity.
Qed.

Lemma filter_filter (T : Type) (p q : T -> bool) l :
  filter p (filter q l) = filter (fun x => q x && p x) l.
Proof.
  induction l as [|x l IH]; cbn [filter]; [reflexivity|].
  destruct (q x); cbn [filter andb]; rewrite IH; reflexivity.
Qed.

Lemma keys_fold bs : forall d,
  map fst (fold_left store bs d)
  = map fst d
      ++ filter (fun k => negb (member k (map fst d)))
           (first_occurrences (map fst bs)).
Proof.
  induction bs as [|[k v] bs IH]; intros d;
    cbn [fold_left map fst first_occurrences filter].
  - symmetry; apply app_nil_r.
  - rewrite IH. unfold store at 1 2; cbn [fst snd]. rewrite keys_dict_set.
    rewrite filter_filter.
    destruct (member k (map fst d)) eqn:M; cbn [negb].
    + f_equal. apply filter_ext_in. intros x _.
      destruct (text_eqb x k) eqn:E; cbn [negb andb]; [|reflexivity].
      apply text_eqb_eq in E; subst x. rewrite M; reflexivity.
    + rewrite <- app_assoc. cbn [app]. do 2 f_equal.
      apply filter_ext_in. intros x _. unfold member.
      rewrite existsb_app. cbn [existsb]. rewrite orb_false_r, negb_orb.
      apply andb_comm.
Qed.

Lemma parse_code_blocks_keys (content : text) :
  exists files,
    parse_code_blocks content = Ok files
    /\ map fst files = first_occurrences (map fst (classified content)).
Proof.
  rewrite parse_code_blocks_fold. eexists; split; [reflexivity|].
  rewrite keys_fold. cbn [map app]. 
  rewrite (filter_ext _ (fun _ => true)) by reflexivity.
  clear. induction (first_occurrences (map fst (classified content)));
    cbn [filter]; congruence.
Qed.

(** X1.  The mapping lists the file names in the order in which they first
    appear in the text: a later block with a name that is there replaces
    the body and leaves the place. *)
Theorem order_of_discovery (content : text) :
  exists files,
    parse_code_blocks content = Ok files
    /\ map fst files = first_occurrences (map fst (classified content)).
Proof. exact (parse_code_blocks_keys content). Qed.

(** ** The file names and the bodies the pattern can give *)

Lemma forallb_dotted p stem ext :
  forallb p stem = true -> p "."%char = true -> forallb p ext = true ->
  forallb p (dotted stem ext) = true.
Proof.
  intros H1 H2 H3. unfold dotted.
  rewrite !forallb_app, H1, H3. cbn [str list_ascii_of_string forallb].
  rewrite H2. reflexivity.
Qed.

Lemma match_at_fence_name s t rest f body :
  match_at pattern s = Some (t, rest) ->
  named_by_fence t = Some (f, body) -> fence_name f = true.
Proof.
  unfold match_at, pattern; cbn [rmatch]; intros H.
  destruct (strip_prefix fence s) as [s1|] eqn:E1; [|discriminate].
  apply rmatch_sound in H as (hdr & s2 & g & _ & M & H).
  apply closing_inv in H as (body' & rest' & -> & Hfree & H); [|discriminate].
  injection H as <- <-. unfold headers in M.
  inversion M as [| |? ? ? ? ? M1| ? ? ? ? ? M1| | | | |]; subst; clear M;
    [|inversion M1 as [| |? ? ? ? ? M2| ? ? ? ? ? M2| | | | |];
      subst; clear M1].
  - apply header_v0_inv in M1
      as (language & ws & path & -> & Hl & _ & _ & _ & Hp & Hq & ->).
    cbv [named_by_fence group_count pattern headers closing
         header_v0 header_colon header_direct extension Nat.add seq map
         group set_group Nat.eqb length].
    rewrite !truthy_ne by auto. intros [= <- _].
    unfold fence_name. rewrite Hq. reflexivity.
  - apply header_colon_inv in M2
      as (language & stem & ext & -> & Hl & _ & Hs & Hsn & He & ->).
    cbv [named_by_fence group_count pattern headers closing
         header_v0 header_colon header_direct extension Nat.add seq map
         group set_group Nat.eqb length].
    change (truthy []) with false; cbn [andb].
    rewrite !truthy_ne by auto using dotted_nonempty. intros [= <- _].
    unfold fence_name. rewrite ends_with_extension_dotted by auto.
    destruct (extension_chars _ He) as (_ & Hnl & _).
    rewrite (@forallb_dotted (not_char nl) stem ext Hsn eq_refl Hnl).
    apply orb_true_r.
  - apply header_direct_inv in M2 as (stem & ext & -> & Hs & Hsn & He & ->).
    cbv [named_by_fence group_count pattern headers closing
         header_v0 header_colon header_direct extension Nat.add seq map
         group set_group Nat.eqb length].
    change (truthy []) with false; cbn [andb].
    rewrite !truthy_ne by auto using dotted_nonempty. intros [= <- _].
    unfold fence_name. rewrite ends_with_extension_dotted by auto.
    destruct (extension_chars _ He) as (_ & Hnl & _).
    rewrite (@forallb_dotted (not_char nl) stem ext Hsn eq_refl Hnl).
    apply orb_true_r.
Qed.

Lemma classified_In content f body :
  In (f, body) (classified content) ->
  f <> [] /\ fence_name f = true /\ fence_free body = true.
Proof.
  intros H. apply resolve_all_In in H as (m & Hm & R).
  pose proof Hm as Hm'.
  apply findall_In in Hm
    as (pre & hdr & f' & body' & rest & E & Hf & Hne & _ & N & R').
  rewrite R in R'. injection R' as <- <-.
  repeat split; auto.
  apply scan_In in Hm' as (pre' & u & rest' & _ & Hu).
  eapply match_at_fence_name; eauto.
Qed.

Lemma strip_prefix_app_Some (l a b r : text) :
  strip_prefix l a = Some r -> strip_prefix l (a ++ b) = Some (r ++ b).
Proof.
  intros H. apply strip_prefix_Some in H; subst a.
  rewrite <- app_assoc. apply strip_prefix_app.
Qed.

Lemma has_fence_app_l (a b : text) :
  has_fence (a ++ b) = false -> has_fence a = false.
Proof.
  induction a as [|c a IH]; [reflexivity|].
  cbn [app has_fence]. intros H; apply orb_false_iff in H as [H1 H2].
  rewrite (IH H2), orb_false_r. unfold starts_with in *.
  destruct (strip_prefix fence (c :: a)) as [r|] eqn:E; [|reflexivity].
  change (c :: a ++ b) with ((c :: a) ++ b) in H1.
  rewrite (@strip_prefix_app_Some fence (c :: a) b r E) in H1. discriminate.
Qed.

Lemma fence_free_strip (raw : text) :
  fence_free raw = true -> has_fence (strip raw) = false.
Proof.
  unfold fence_free; rewrite negb_true_iff; intros H.
  apply has_fence_app_l in H.
  destruct (strip_spec raw) as (l & r & E & _). rewrite E in H.
  apply has_fence_app_r, has_fence_app_l in H. exact H.
Qed.

(** X2.  Every file name in the mapping is not empty and is as the fence
    gave it: it holds no double quote, or it is one line that ends with a
    dot and a recognised extension. *)
Theorem names_come_from_fences content files k b :
  parse_code_blocks content = Ok files ->
  dict_get files k = Some b ->
  k <> [] /\ fence_name k = true.
Proof.
  rewrite parse_code_blocks_fold. intros [= <-]. rewrite dict_get_fold.
  destruct (last_named k (classified content)) as [raw|] eqn:L;
    [|discriminate].
  intros _. apply last_named_In, classified_In in L as (H1 & H2 & _). auto.
Qed.

Lemma names_come_from_fences_witness :
  parse_code_blocks overwrite_text
  = Ok [(str "a.py", str "second"); (str "b.py", str "other")]
  /\ dict_get [(str "a.py", str "second"); (str "b.py", str "other")]
       (str "b.py") = Some (str "other")
  /\ str "b.py" <> [] /\ fence_name (str "b.py") = true.
Proof.
  split; [reflexivity|]. split; [reflexivity|].
  apply (@names_come_from_fences overwrite_text
           [(str "a.py", str "second"); (str "b.py", str "other")]
           (str "b.py") (str "other")); reflexivity.
Defined.

(** X3.  No body in the mapping holds three backticks in a row: a file whose
    text has a fence of its own is never extracted whole. *)
Theorem bodies_hold_no_fence content files k b :
  parse_code_blocks content = Ok files ->
  dict_get files k = Some b ->
  has_fence b = false.
Proof.
  rewrite parse_code_blocks_fold. intros [= <-]. rewrite dict_get_fold.
  destruct (last_named k (classified content)) as [raw|] eqn:L;
    [|discriminate].
  intros [= <-]. apply last_named_In, classified_In in L as (_ & _ & H).
  apply fence_free_strip; auto.
Qed.

Lemma bodies_hold_no_fence_witness :
  parse_code_blocks two_closings_text = Ok [(str "a.py", str "x = 1")]
  /\ dict_get [(str "a.py", str "x = 1")] (str "a.py") = Some (str "x = 1")
  /\ has_fence (str "x = 1") = false.
Proof.
  split; [reflexivity|]. split; [reflexivity|].
  apply (@bodies_hold_no_fence two_closings_text
           [(str "a.py", str "x = 1")] (str "a.py") (str "x = 1"));
    reflexivity.
Defined.

(** ** [create_files] and [generate] when no directory fails *)

Section WritingFacts.
Variable fs : Type.
Variable joinpath : text -> text -> text.
Variable parent : text -> text.
Variable mkdir_parents : text -> fs -> option exn * fs.
Variable write_text : text -> text -> fs -> option exn * fs.



(** X5.  A response in which the pattern finds no block leaves the disk as it
  is: [generate] prints that no files were found and makes no directory
  and writes no file. *)
Theorem generate_without_blocks response base_path w :
classified response = [] ->
generate_files joinpath parent mkdir_parents write_text response base_path w
= (Returned, World (disk w) (console w ++ [NoFilesFound])).
Proof.
intros H. unfold generate_files.
rewrite parse_code_blocks_fold, H. reflexivity.
Qed.

End WritingFacts.



Lemma generate_without_blocks_witness :
  classified two_typescript_text = []
  /\ generate_files TinyFS.joinpath TinyFS.parent TinyFS.mkdir_parents
       TinyFS.write_text two_typescript_text (str "out")
       (World blocked_disk [])
     = (Returned, World blocked_disk ([] ++ [NoFilesFound])).
Proof.
  split; [reflexivity|].
  apply (@generate_without_blocks TinyFS.fs TinyFS.joinpath TinyFS.parent
           TinyFS.mkdir_parents TinyFS.write_text two_typescript_text
           (str "out") (World blocked_disk [])).
  reflexivity.
Defined.


(** On the locked disk the response with [a.py] twice and [b.py] once is
    reported as two files: the write of [a.py] fails, [b.py] is created. *)
Example generate_on_locked_disk :
  LockedFS.generate_files two_files_text (str "out") (World locked_disk [])
  = (Returned,
     World (LockedFS.Disk [str "out/a.py"] [(str "out/b.py", str "y = 2")])
       [Creating 2; FailedToCreate (str "out/a.py") OSError;
        Created (str "out/b.py")]).
Proof. vm_compute; reflexivity. Qed.

(** ** Lines of a text file *)

Lemma readlines_open (l : text) :
  l <> [] -> forallb (not_char nl) l = true -> readlines l = [l].
Proof.
  induction l as [|c l IH]; [tauto|]; intros _ H.
  cbn [forallb] in H; apply andb_true_iff in H as [Hc Hl].
  unfold not_char in Hc; apply negb_true_iff in Hc.
  cbn [readlines]. rewrite Hc.
  destruct l as [|d l]; [reflexivity|].
  rewrite IH by (auto; discriminate). reflexivity.
Qed.

Lemma readlines_closed (l s : text) :
  forallb (not_char nl) l = true ->
  readlines (l ++ nl :: s) = (l ++ [nl]) :: readlines s.
Proof.
  induction l as [|c l IH]; intros H.
  - cbn [app readlines]. rewrite Ascii.eqb_refl. reflexivity.
  - cbn [forallb] in H; apply andb_true_iff in H as [Hc Hl].
    unfold not_char in Hc; apply negb_true_iff in Hc.
    cbn [app readlines]. rewrite Hc, IH by auto. reflexivity.
Qed.

Lemma readlines_proper (s : text) : proper_lines (readlines s).
Proof.
  induction s as [|c s IH]; cbn [readlines]; [constructor|].
  destruct (Ascii.eqb c nl) eqn:E.
  - apply Ascii.eqb_eq in E; subst c.
    apply (PL_closed [] (ls := readlines s)); auto.
  - assert (Hc : not_char nl c = true) by (unfold not_char; rewrite E; auto).
    destruct (readlines s) as [|l ls]; [apply PL_open; cbn; [discriminate|]|].
    + rewrite Hc; reflexivity.
    + inversion IH as [|l' Hne Hl|l' ls' Hl Hls]; subst.
      * apply PL_open; [discriminate|]. cbn [forallb]. rewrite Hc, Hl; auto.
      * apply (PL_closed (c :: l') (ls := ls)); auto.
        cbn [forallb]. rewrite Hc, Hl; auto.
Qed.

Lemma readlines_concat ls : proper_lines ls -> readlines (concat ls) = ls.
Proof.
  induction 1 as [|l Hne Hl|l ls Hl Hls IH]; cbn [concat].
  - reflexivity.
  - rewrite app_nil_r. apply readlines_open; auto.
  - rewrite <- app_assoc. cbn [app]. rewrite readlines_closed, IH; auto.
Qed.

Lemma concat_readlines (s : text) : concat (readlines s) = s.
Proof.
  induction s as [|c s IH]; cbn [readlines]; [reflexivity|].
  destruct (Ascii.eqb c nl) eqn:E.
  - cbn [concat app]. rewrite IH. reflexivity.
  - destruct (readlines s) as [|l ls]; cbn [concat app] in *;
      rewrite <- IH; reflexivity.
Qed.

Lemma proper_filter (p : text -> bool) ls :
  proper_lines ls -> proper_lines (filter p ls).
Proof.
  induction 1 as [|l Hne Hl|l ls Hl Hls IH]; cbn [filter].
  - constructor.
  - destruct (p l); [apply PL_open; auto | constructor].
  - destruct (p (l ++ [nl])); [apply PL_closed; auto | auto].
Qed.

Lemma ends_with_nl_last (s : text) c :
  ends_with [nl] (s ++ [c]) = Ascii.eqb nl c.
Proof.
  unfold ends_with, starts_with. rewrite rev_app_distr.
  cbn [rev app strip_prefix]. destruct (Ascii.eqb nl c); reflexivity.
Qed.

Lemma ends_with_nl_app (a b : text) :
  b <> [] -> ends_with [nl] (a ++ b) = ends_with [nl] b.
Proof.
  intros H. destruct (exists_last H) as (b' & c & ->).
  rewrite app_assoc, !ends_with_nl_last. reflexivity.
Qed.

Lemma ends_with_nl_open (l : text) :
  l <> [] -> forallb (not_char nl) l = true -> ends_with [nl] l = false.
Proof.
  intros H Hl. destruct (exists_last H) as (l' & c & ->).
  rewrite ends_with_nl_last. rewrite forallb_app in Hl.
  apply andb_true_iff in Hl as [_ Hc]. cbn [forallb] in Hc.
  rewrite andb_true_r in Hc. unfold not_char in Hc.
  apply negb_true_iff in Hc. rewrite Ascii.eqb_sym. exact Hc.
Qed.

Lemma closed_line_closed (l : text) : closed_line (l ++ [nl]) = l ++ [nl].
Proof.
  unfold closed_line. rewrite ends_with_nl_last, Ascii.eqb_refl. reflexivity.
Qed.

Lemma closed_line_open (l : text) :
  l <> [] -> forallb (not_char nl) l = true -> closed_line l = l ++ [nl].
Proof.
  intros H Hl. unfold closed_line. rewrite ends_with_nl_open; auto.
Qed.

Lemma closing_newline_app (a b : text) :
  a <> [] -> closing_newline (a ++ b)
             = match b with [] => closing_newline a | _ => closing_newline b end.
Proof.
  intros Ha. destruct b as [|c b]; [rewrite app_nil_r; reflexivity|].
  unfold closing_newline. rewrite ends_with_nl_app by discriminate.
  destruct a; [tauto|]. reflexivity.
Qed.

(** What is kept, closed by a newline if need be, is the kept lines, each
    one closed. *)
Lemma concat_closed ls :
  proper_lines ls ->
  concat ls ++ closing_newline (concat ls) = concat (map closed_line ls).
Proof.
  induction 1 as [|l Hne Hl|l ls Hl Hls IH]; cbn [concat map].
  - reflexivity.
  - rewrite !app_nil_r, closed_line_open by auto.
    unfold closing_newline. rewrite ends_with_nl_open by auto.
    destruct l; [tauto|]. reflexivity.
  - rewrite closed_line_closed, <- IH, <- app_assoc. f_equal. f_equal.
    rewrite closing_newline_app by (destruct l; discriminate).
    destruct (concat ls); [|reflexivity].
    unfold closing_newline. rewrite ends_with_nl_last, Ascii.eqb_refl.
    rewrite andb_false_r. reflexivity.
Qed.

Lemma proper_closed_then ls k :
  proper_lines ls -> forallb (not_char nl) k = true ->
  proper_lines (map closed_line ls ++ [k ++ [nl]]).
Proof.
  intros H Hk.
  induction H as [|l Hne Hl|l ls Hl Hls IH]; cbn [map app].
  - apply PL_closed; [auto | constructor].
  - rewrite closed_line_open by auto.
    apply PL_closed; auto. apply (PL_closed k (ls := [])); [auto|constructor].
  - rewrite closed_line_closed. apply PL_closed; auto.
Qed.

(** ** Carriage returns *)

Lemma universal_newlines_no_cr_aux n : forall s,
  length s <= n -> no_cr (universal_newlines s) = true.
Proof.
  induction n as [|n IH]; intros s H.
  - destruct s; [reflexivity | cbn in H; lia].
  - destruct s as [|c s]; [reflexivity|]. cbn [length] in H.
    cbn [universal_newlines].
    destruct (Ascii.eqb c cr) eqn:E.
    + unfold no_cr. cbn [forallb]. change (not_char cr nl) with true.
      cbn [andb]. destruct s as [|d s]; [reflexivity|].
      cbn [length] in H.
      destruct (Ascii.eqb d nl); apply IH; cbn [length]; lia.
    + unfold no_cr. cbn [forallb]. unfold not_char at 1. rewrite E.
      cbn [negb andb]. apply IH; lia.
Qed.

Lemma universal_newlines_no_cr (s : text) :
  no_cr (universal_newlines s) = true.
Proof. apply (universal_newlines_no_cr_aux (n := length s)); lia. Qed.

Lemma universal_newlines_id (s : text) :
  no_cr s = true -> universal_newlines s = s.
Proof.
  induction s as [|c s IH]; [reflexivity|].
  unfold no_cr; cbn [forallb]; intros H; apply andb_true_iff in H as [Hc Hs].
  unfold not_char in Hc; apply negb_true_iff in Hc.
  cbn [universal_newlines]. rewrite Hc, IH; auto.
Qed.

Lemma no_cr_concat ls :
  (forall l, In l ls -> no_cr l = true) -> no_cr (concat ls) = true.
Proof.
  induction ls as [|l ls IH]; intros H; [reflexivity|].
  cbn [concat]. unfold no_cr. rewrite forallb_app.
  fold (no_cr l) (no_cr (concat ls)).
  rewrite H by (left; reflexivity). rewrite IH; auto.
  intros; apply H; right; auto.
Qed.

Lemma no_cr_line (s l : text) :
  no_cr s = true -> In l (readlines s) -> no_cr l = true.
Proof.
  intros Hs Hl. unfold no_cr in *. rewrite forallb_forall in *.
  intros c Hc. apply Hs. rewrite <- (concat_readlines s).
  apply in_concat. exists l; auto.
Qed.

Lemma no_cr_other_lines existing :
  no_cr (concat (other_lines existing)) = true.
Proof.
  destruct existing as [d|]; [|reflexivity]. cbn [other_lines].
  apply no_cr_concat. intros l Hl. apply filter_In in Hl as [Hl _].
  apply (@no_cr_line (universal_newlines d) l (universal_newlines_no_cr d) Hl).
Qed.

Lemma proper_other_lines existing : proper_lines (other_lines existing).
Proof.
  destruct existing as [d|]; [|constructor].
  apply proper_filter, readlines_proper.
Qed.

(** ** Lines that set the key *)

Lemma lstrip_stops (s : text) : stops is_space s = true -> lstrip s = s.
Proof.
  destruct s as [|c s]; [reflexivity|]. cbn [stops lstrip].
  intros H; apply negb_true_iff in H; rewrite H; reflexivity.
Qed.

Lemma rstrip_keeps (a b : text) :
  a <> [] -> stops is_space (rev a) = true -> rstrip (a ++ b) = a ++ rstrip b.
Proof.
  intros Ha Hs. unfold rstrip. rewrite rev_app_distr, lstrip_app.
  destruct (lstrip (rev b)) as [|c l] eqn:E.
  - rewrite lstrip_stops by auto. rewrite rev_involutive.
    cbn [rev]. rewrite app_nil_r. reflexivity.
  - rewrite rev_app_distr, rev_involutive. reflexivity.
Qed.

Lemma strip_app_space (l : text) c :
  is_space c = true -> strip (l ++ [c]) = strip l.
Proof.
  intros Hc. unfold strip. rewrite lstrip_app.
  destruct (lstrip l) as [|d l'] eqn:E.
  - cbn [lstrip]. rewrite Hc. reflexivity.
  - unfold rstrip. rewrite rev_app_distr. cbn [rev app lstrip].
    rewrite Hc. reflexivity.
Qed.

Lemma sets_api_key_closed (l : text) :
  sets_api_key (closed_line l) = sets_api_key l.
Proof.
  unfold closed_line. destruct (ends_with [nl] l); [reflexivity|].
  unfold sets_api_key. rewrite strip_app_space; reflexivity.
Qed.

Lemma sets_api_key_key_line api_key : sets_api_key (key_line api_key) = true.
Proof.
  unfold sets_api_key, key_line, strip.
  rewrite lstrip_stops by reflexivity.
  rewrite rstrip_keeps by (reflexivity || discriminate).
  unfold starts_with. rewrite strip_prefix_app. reflexivity.
Qed.

Lemma single_line_parts (k : text) :
  single_line k = true ->
  forallb (not_char nl) k = true /\ no_cr k = true.
Proof.
  unfold single_line, no_cr, not_char. rewrite !forallb_forall.
  intros H; split; intros c Hc; specialize (H c Hc);
    apply andb_true_iff in H as [H1 H2]; auto.
Qed.

Lemma save_api_key_parts existing api_key :
  save_api_key existing api_key
  = concat (map closed_line (other_lines existing)) ++ key_line api_key.
Proof.
  rewrite <- concat_closed by apply proper_other_lines.
  rewrite <- app_assoc.
  destruct existing as [d|]; reflexivity.
Qed.

Lemma key_line_closed api_key :
  key_line api_key = (str "V0_API_KEY=" ++ api_key) ++ [nl].
Proof. unfold key_line. rewrite <- app_assoc. reflexivity. Qed.

Lemma no_cr_closed_line (l : text) :
  no_cr l = true -> no_cr (closed_line l) = true.
Proof.
  intros H. unfold closed_line. destruct (ends_with [nl] l); auto.
  unfold no_cr. rewrite forallb_app. fold (no_cr l). rewrite H. reflexivity.
Qed.

Lemma saved_text_no_cr existing api_key :
  no_cr api_key = true -> no_cr (save_api_key existing api_key) = true.
Proof.
  intros Hk. rewrite save_api_key_parts.
  unfold no_cr. rewrite forallb_app. apply andb_true_iff; split.
  - apply no_cr_concat. intros l Hl. apply in_map_iff in Hl as (l0 & <- & Hl).
    apply no_cr_closed_line.
    destruct existing as [d|]; [|destruct Hl]. cbn [other_lines] in Hl.
    apply filter_In in Hl as [Hl _].
    apply (@no_cr_line (universal_newlines d) l0
             (universal_newlines_no_cr d) Hl).
  - unfold key_line. rewrite !forallb_app. fold (no_cr api_key).
    rewrite Hk. reflexivity.
Qed.

Lemma saved_lines_proper existing api_key :
  forallb (not_char nl) api_key = true ->
  proper_lines (map closed_line (other_lines existing) ++ [key_line api_key]).
Proof.
  intros Hk. rewrite key_line_closed.
  apply proper_closed_then; [apply proper_other_lines|].
  rewrite forallb_app, Hk. reflexivity.
Qed.

Lemma saved_file_lines existing api_key :
  single_line api_key = true ->
  readlines (universal_newlines (save_api_key existing api_key))
  = map closed_line (other_lines existing) ++ [key_line api_key].
Proof.
  intros Hk. destruct (single_line_parts _ Hk) as [Hnl Hcr].
  rewrite universal_newlines_id by (apply saved_text_no_cr; auto).
  rewrite save_api_key_parts.
  replace (concat (map closed_line (other_lines existing)) ++ key_line api_key)
    with (concat (map closed_line (other_lines existing) ++ [key_line api_key]))
    by (rewrite concat_app; cbn [concat]; rewrite app_nil_r; reflexivity).
  apply readlines_concat, saved_lines_proper; auto.
Qed.

(** X7.  After the key is saved the file reads as the lines it had that did
    not set the key, in their order and each closed by a newline, and then
    the line with the new key. *)
Theorem saved_file_keeps_other_lines existing api_key :
  single_line api_key = true ->
  readlines (universal_newlines (save_api_key existing api_key))
  = map closed_line (other_lines existing) ++ [key_line api_key].
Proof. apply saved_file_lines. Qed.

Lemma saved_file_keeps_other_lines_witness :
  single_line (str "v0_new") = true
  /\ readlines (universal_newlines (save_api_key (Some env_text) (str "v0_new")))
     = map closed_line (other_lines (Some env_text))
         ++ [key_line (str "v0_new")].
Proof.
  split; [reflexivity|].
  apply saved_file_keeps_other_lines; reflexivity.
Defined.

Lemma filter_none (T : Type) (p : T -> bool) l :
  (forall x, In x l -> p x = false) -> filter p l = [].
Proof.
  induction l as [|x l IH]; intros H; [reflexivity|].
  cbn [filter]. rewrite H by (left; reflexivity).
  apply IH. intros; apply H; right; auto.
Qed.

Lemma filter_all (T : Type) (p : T -> bool) l :
  (forall x, In x l -> p x = true) -> filter p l = l.
Proof.
  induction l as [|x l IH]; intros H; [reflexivity|].
  cbn [filter]. rewrite H by (left; reflexivity).
  f_equal. apply IH. intros; apply H; right; auto.
Qed.

Lemma other_lines_do_not_set existing l :
  In l (map closed_line (other_lines existing)) -> sets_api_key l = false.
Proof.
  intros H. apply in_map_iff in H as (l0 & <- & H).
  rewrite sets_api_key_closed.
  destruct existing as [d|]; [|destruct H]. cbn [other_lines] in H.
  apply filter_In in H as [_ H]. apply negb_true_iff in H. exact H.
Qed.

(** X8.  After the key is saved, one line of the file sets the key, and it
    is the new one, whatever lines set it before. *)
Theorem saved_file_has_one_key existing api_key :
  single_line api_key = true ->
  filter sets_api_key
    (readlines (universal_newlines (save_api_key existing api_key)))
  = [key_line api_key].
Proof.
  intros Hk. rewrite saved_file_lines by auto.
  rewrite filter_app. cbn [filter]. rewrite sets_api_key_key_line.
  rewrite filter_none by apply other_lines_do_not_set. reflexivity.
Qed.

Lemma saved_file_has_one_key_witness :
  single_line (str "v0_new") = true
  /\ filter sets_api_key
       (readlines
          (universal_newlines (save_api_key (Some env_text) (str "v0_new"))))
     = [key_line (str "v0_new")].
Proof.
  split; [reflexivity|].
  apply saved_file_has_one_key; reflexivity.
Defined.

Lemma closed_line_idempotent (l : text) :
  closed_line (closed_line l) = closed_line l.
Proof.
  assert (H : closed_line l = l \/ closed_line l = l ++ [nl])
    by (unfold closed_line; destruct (ends_with [nl] l) eqn:E; auto).
  destruct H as [H|H]; rewrite H; [exact H | apply closed_line_closed].
Qed.

(** X9.  Saving a key and then another leaves the file as saving the second
    one alone does; so saving the same key again changes nothing. *)
Theorem last_saved_key_wins existing first_key second_key :
  single_line first_key = true ->
  save_api_key (Some (save_api_key existing first_key)) second_key
  = save_api_key existing second_key.
Proof.
  intros Hk. rewrite (save_api_key_parts (Some _)). cbn [other_lines].
  rewrite saved_file_lines by auto.
  rewrite filter_app. cbn [filter]. rewrite sets_api_key_key_line.
  cbn [negb]. rewrite app_nil_r.
  rewrite filter_all
    by (intros l Hl; rewrite (other_lines_do_not_set existing l Hl);
        reflexivity).
  rewrite map_map.
  rewrite (map_ext _ closed_line) by (intros; apply closed_line_idempotent).
  symmetry. apply save_api_key_parts.
Qed.

Lemma last_saved_key_wins_witness :
  single_line (str "v0_first") = true
  /\ save_api_key (Some (save_api_key (Some env_text) (str "v0_first")))
       (str "v0_second")
     = save_api_key (Some env_text) (str "v0_second").
Proof.
  split; [reflexivity|].
  apply last_saved_key_wins; reflexivity.
Defined.

(** The file of the example, with its old key in the middle and no newline
    at its end, after a key is saved. *)
Example save_api_key_example :
  save_api_key (Some env_text) (str "v0_new")
  = lines ["DEBUG=1"; "PORT=8000"; "V0_API_KEY=v0_new"; ""].
Proof. vm_compute; reflexivity. Qed.

(** ** The order of [str] and of the items of a mapping *)

Lemma code_inj (x y : ascii) : code x = code y -> x = y.
Proof.
  unfold code; intros H.
  rewrite <- (ascii_N_embedding x), <- (ascii_N_embedding y), H. reflexivity.
Qed.

Lemma code_lt_or (x y : ascii) :
  Ascii.eqb x y = false -> (code x <? code y)%N = negb (code y <? code x)%N.
Proof.
  intros E. apply Ascii.eqb_neq in E.
  destruct (N.ltb_spec (code x) (code y)), (N.ltb_spec (code y) (code x));
    try reflexivity; try lia.
  exfalso; apply E, code_inj; lia.
Qed.

Lemma text_leb_total (a b : text) : text_leb a b = true \/ text_leb b a = true.
Proof.
  revert b; induction a as [|x a IH]; intros [|y b]; cbn [text_leb]; auto.
  rewrite (Ascii.eqb_sym y x).
  destruct (Ascii.eqb x y) eqn:E; [apply IH|].
  rewrite (code_lt_or _ _ E). destruct (code y <? code x)%N; auto.
Qed.

Lemma text_leb_antisym (a b : text) :
  text_leb a b = true -> text_leb b a = true -> a = b.
Proof.
  revert b; induction a as [|x a IH]; intros [|y b]; cbn [text_leb];
    try discriminate; auto.
  rewrite (Ascii.eqb_sym y x).
  destruct (Ascii.eqb x y) eqn:E.
  - apply Ascii.eqb_eq in E; subst y. intros H1 H2. f_equal; auto.
  - rewrite (code_lt_or _ _ E). destruct (code y <? code x)%N; discriminate.
Qed.

Lemma text_leb_trans (a b c : text) :
  text_leb a b = true -> text_leb b c = true -> text_leb a c = true.
Proof.
  revert b c; induction a as [|x a IH]; intros [|y b] [|z c]; cbn [text_leb];
    try discriminate; auto.
  destruct (Ascii.eqb x y) eqn:E1.
  - apply Ascii.eqb_eq in E1; subst y.
    destruct (Ascii.eqb x z); eauto.
  - destruct (Ascii.eqb y z) eqn:E2.
    + apply Ascii.eqb_eq in E2; subst z. rewrite E1. auto.
    + intros H1 H2. apply N.ltb_lt in H1, H2.
      destruct (Ascii.eqb x z) eqn:E3.
      * apply Ascii.eqb_eq in E3; subst z. lia.
      * apply N.ltb_lt. lia.
Qed.

Lemma text_leb_refl (a : text) : text_leb a a = true.
Proof. destruct (text_leb_total a a); auto. Qed.

Lemma item_leb_total (a b : text * text) :
  item_leb a b = true \/ item_leb b a = true.
Proof.
  unfold item_leb. rewrite (text_eqb_sym (fst b) (fst a)).
  destruct (text_eqb (fst a) (fst b)); apply text_leb_total.
Qed.

Lemma item_leb_antisym (a b : text * text) :
  item_leb a b = true -> item_leb b a = true -> a = b.
Proof.
  unfold item_leb. rewrite (text_eqb_sym (fst b) (fst a)).
  destruct a as [ka va], b as [kb vb]; cbn [fst snd].
  destruct (text_eqb ka kb) eqn:E; intros H1 H2.
  - apply text_eqb_eq in E; subst kb. f_equal. apply text_leb_antisym; auto.
  - apply text_eqb_neq in E. exfalso; apply E, text_leb_antisym; auto.
Qed.

Lemma item_leb_trans (a b c : text * text) :
  item_leb a b = true -> item_leb b c = true -> item_leb a c = true.
Proof.
  unfold item_leb.
  destruct a as [ka va], b as [kb vb], c as [kc vc]; cbn [fst snd].
  destruct (text_eqb ka kb) eqn:E1; destruct (text_eqb kb kc) eqn:E2;
    intros H1 H2.
  - apply text_eqb_eq in E1, E2; subst. rewrite text_eqb_refl.
    eapply text_leb_trans; eauto.
  - apply text_eqb_eq in E1; subst kb. rewrite E2. auto.
  - apply text_eqb_eq in E2; subst kc. rewrite E1. auto.
  - destruct (text_eqb ka kc) eqn:E3.
    + apply text_eqb_eq in E3; subst kc. apply text_eqb_neq in E1.
      exfalso; apply E1, text_leb_antisym; auto.
    + eapply text_leb_trans; eauto.
Qed.

(** ** [sorted] does not depend on the order of what it is given *)

Section SortedFacts.
Variable T : Type.
Variable leb : T -> T -> bool.
Hypothesis leb_total : forall a b, leb a b = true \/ leb b a = true.
Hypothesis leb_antisym : forall a b, leb a b = true -> leb b a = true -> a = b.
Hypothesis leb_trans :
forall a b c, leb a b = true -> leb b c = true -> leb a c = true.

Lemma insert_sorted_comm x y l :
insert_sorted leb x (insert_sorted leb y l)
= insert_sorted leb y (insert_sorted leb x l).
Proof.
induction l as [|z l IH]; cbn [insert_sorted].
- destruct (leb x y) eqn:Exy, (leb y x) eqn:Eyx; try reflexivity.
  + rewrite (leb_antisym Exy Eyx). reflexivity.
  + destruct (leb_total x y); congruence.
- destruct (leb y z) eqn:Eyz, (leb x z) eqn:Exz; cbn [insert_sorted];
    rewrite ?Eyz, ?Exz.
  + destruct (leb x y) eqn:Exy, (leb y x) eqn:Eyx; try reflexivity.
    * rewrite (leb_antisym Exy Eyx). reflexivity.
    * destruct (leb_total x y); congruence.
  + destruct (leb x y) eqn:Exy; [|reflexivity].
    rewrite (leb_trans Exy Eyz) in Exz. discriminate.
  + destruct (leb y x) eqn:Eyx; [|reflexivity].
    rewrite (leb_trans Eyx Exz) in Eyz. discriminate.
  + rewrite IH. reflexivity.
Qed.

Lemma sorted_permutation l1 l2 :
Permutation l1 l2 -> sorted leb l1 = sorted leb l2.
Proof.
induction 1; cbn [sorted]; try congruence.
apply insert_sorted_comm.
Qed.
End SortedFacts.

Lemma sorted_keys_permutation (l1 l2 : list text) :
  Permutation l1 l2 -> sorted text_leb l1 = sorted text_leb l2.
Proof.
  apply sorted_permutation;
    [apply text_leb_total | apply text_leb_antisym | apply text_leb_trans].
Qed.

Lemma sorted_items_permutation (l1 l2 : dict) :
  Permutation l1 l2 -> sorted item_leb l1 = sorted item_leb l2.
Proof.
  apply sorted_permutation;
    [apply item_leb_total | apply item_leb_antisym | apply item_leb_trans].
Qed.

(** The prompt is the same for two mappings with the same entries in another
    order. *)
Lemma format_codebase_permutation (codebase1 codebase2 : dict) :
  Permutation codebase1 codebase2 ->
  format_codebase_for_api codebase1 = format_codebase_for_api codebase2.
Proof.
  intros H. unfold format_codebase_for_api.
  rewrite (sorted_items_permutation H).
  rewrite (sorted_keys_permutation (Permutation_map fst H)). reflexivity.
Qed.

(** ** [should_include_file] and [read_codebase] *)

Lemma read_into_app base d a b :
  read_into base d (a ++ b) = read_into base (read_into base d a) b.
Proof.
  revert d; induction a as [|p a IH]; intros d; cbn [app read_into]; auto.
  destruct (is_file p && should_include_file base p); auto.
  destruct (content p); auto.
Qed.

Lemma read_into_items base found : forall d,
  read_into base d found
  = fold_left (fun d kv => dict_set d (fst kv) (snd kv))
      (read_items base found) d.
Proof.
  induction found as [|p found IH]; intros d; cbn [read_into read_items].
  - reflexivity.
  - destruct (is_file p && should_include_file base p); auto.
    destruct (content p); cbn [fold_left fst snd]; auto.
Qed.

Lemma read_items_In base found k c :
  In (k, c) (read_items base found) ->
  exists p,
    In p found /\ relative_path p = k /\ content p = Some c
    /\ is_file p = true /\ should_include_file base p = true.
Proof.
  induction found as [|p found IH]; cbn [read_items]; [intros []|].
  destruct (is_file p && should_include_file base p) eqn:A.
  - apply andb_true_iff in A as [A1 A2].
    destruct (content p) as [c'|] eqn:C.
    + intros [[= <- <-]|H].
      * exists p; repeat split; auto. left; reflexivity.
      * destruct (IH H) as (q & Hq & R). exists q; split; [right|]; auto.
    + intros H. destruct (IH H) as (q & Hq & R). exists q; split; [right|]; auto.
  - intros H. destruct (IH H) as (q & Hq & R). exists q; split; [right|]; auto.
Qed.

Lemma plain_fold_get items : forall d k c,
  dict_get (fold_left (fun d kv => dict_set d (fst kv) (snd kv)) items d) k
  = Some c ->
  dict_get d k = Some c \/ In (k, c) items.
Proof.
  induction items as [|[k0 c0] items IH]; intros d k c; cbn [fold_left fst snd].
  - auto.
  - intros H. apply IH in H as [H|H]; [|right; right; exact H].
    rewrite dict_get_set in H.
    destruct (text_eqb k k0) eqn:E; auto.
    apply text_eqb_eq in E; subst k0. injection H as <-.
    right; left; reflexivity.
Qed.

Lemma should_include_file_inv base p :
  should_include_file base p = true ->
  member (lower (suffix base p)) INCLUDE_EXTENSIONS = true
  /\ existsb (fun part => member part EXCLUDE_DIRS) (parts base p) = false
  /\ exists size, st_size p = Some size /\ (size <= 100000)%N.
Proof.
  unfold should_include_file.
  destruct (member (lower (suffix base p)) INCLUDE_EXTENSIONS);
    [|discriminate].
  destruct (existsb _ (parts base p)); [discriminate|].
  destruct (st_size p) as [size|]; [|discriminate].
  cbn [negb]. intros H. apply negb_true_iff, N.ltb_ge in H.
  repeat split; auto. exists size; auto.
Qed.

(** X10.  Every entry of the mapping [read_codebase] returns is the relative
    path and the text of a path the walk found that is a regular file, could
    be read, has at most 100000 bytes, has none of the excluded names among
    its components and has one of the included extensions, in any case of
    letters. *)
Theorem read_codebase_entries base found k c :
  dict_get (read_codebase base found) k = Some c ->
  exists p,
    In p found /\ relative_path p = k /\ content p = Some c
    /\ is_file p = true
    /\ member (lower (suffix base p)) INCLUDE_EXTENSIONS = true
    /\ existsb (fun part => member part EXCLUDE_DIRS) (parts base p) = false
    /\ exists size, st_size p = Some size /\ (size <= 100000)%N.
Proof.
  unfold read_codebase. rewrite read_into_items. intros H.
  apply plain_fold_get in H as [H|H]; [discriminate|].
  apply read_items_In in H as (p & Hp & R & C & F & S).
  exists p. repeat split; auto; apply (should_include_file_inv base p S).
Qed.

Lemma read_codebase_entries_witness :
  dict_get (read_codebase [str "proj"] project_files) (str "src/app.PY")
  = Some (str "x = 1")
  /\ exists p,
       In p project_files /\ relative_path p = str "src/app.PY"
       /\ content p = Some (str "x = 1")
       /\ is_file p = true
       /\ member (lower (suffix [str "proj"] p)) INCLUDE_EXTENSIONS = true
       /\ existsb (fun part => member part EXCLUDE_DIRS)
            (parts [str "proj"] p) = false
       /\ exists size, st_size p = Some size /\ (size <= 100000)%N.
Proof.
  split; [reflexivity|].
  apply (@read_codebase_entries [str "proj"] project_files
           (str "src/app.PY") (str "x = 1")).
  reflexivity.
Defined.

Lemma existsb_app_l (T : Type) (f : T -> bool) a b :
  existsb f a = true -> existsb f (a ++ b) = true.
Proof. intros H. rewrite existsb_app, H. reflexivity. Qed.

(** X11.  When a component of the path of the analysed directory itself has
    one of the excluded names ([build], [env], [dist], ...), no file is
    included and [read_codebase] returns the empty mapping, whatever the
    directory holds. *)
Theorem excluded_base_reads_nothing base found :
  existsb (fun part => member part EXCLUDE_DIRS) base = true ->
  read_codebase base found = [].
Proof.
  intros H. unfold read_codebase.
  induction found as [|p found IH]; cbn [read_into]; [reflexivity|].
  assert (S : should_include_file base p = false).
  { unfold should_include_file, parts. rewrite (existsb_app_l _ _ _ H).
    destruct (negb _); reflexivity. }
  rewrite S, andb_false_r. exact IH.
Qed.

Lemma excluded_base_reads_nothing_witness :
  existsb (fun part => member part EXCLUDE_DIRS)
    [str "/"; str "home"; str "me"; str "build"; str "proj"] = true
  /\ read_codebase [str "/"; str "home"; str "me"; str "build"; str "proj"]
       project_files = [].
Proof.
  split; [reflexivity|].
  apply excluded_base_reads_nothing; reflexivity.
Defined.

Lemma last_dot_none (w : text) :
  forallb (not_char ".") w = true -> last_dot w = None.
Proof.
  induction w as [|c w IH]; [reflexivity|].
  cbn [forallb last_dot]. intros H; apply andb_true_iff in H as [Hc Hw].
  rewrite IH by auto. unfold not_char in Hc. apply negb_true_iff in Hc.
  rewrite Hc. reflexivity.
Qed.

(** X12.  A file whose name is a dot and then a text without a dot
    ([.gitignore], [.env], [.dockerignore]) has no suffix and is never
    included, though these names stand in the set of extensions. *)
Theorem dotfiles_are_not_included base p w :
  last (parts base p) [] = "."%char :: w ->
  forallb (not_char ".") w = true ->
  should_include_file base p = false.
Proof.
  intros N W. unfold should_include_file, suffix. rewrite N.
  unfold suffix_of_name. cbn [last_dot]. rewrite (last_dot_none _ W).
  rewrite Ascii.eqb_refl. reflexivity.
Qed.

Lemma dotfiles_are_not_included_witness :
  last (parts [str "proj"]
          (FoundPath [str ".gitignore"] true (Some 5%N) (Some (str "dist"))))
    [] = "."%char :: str "gitignore"
  /\ forallb (not_char ".") (str "gitignore") = true
  /\ member (str ".gitignore") INCLUDE_EXTENSIONS = true
  /\ should_include_file [str "proj"]
       (FoundPath [str ".gitignore"] true (Some 5%N) (Some (str "dist")))
     = false.
Proof.
  split; [reflexivity|]. split; [reflexivity|]. split; [reflexivity|].
  apply (@dotfiles_are_not_included [str "proj"]
           (FoundPath [str ".gitignore"] true (Some 5%N) (Some (str "dist")))
           (str "gitignore")); reflexivity.
Defined.

(** X13.  A file that cannot be read is left out and the walk goes on: the
    mapping is the one the other paths give. *)
Theorem unreadable_file_is_skipped base before p after :
  content p = None ->
  read_codebase base (before ++ p :: after)
  = read_codebase base (before ++ after).
Proof.
  intros H. unfold read_codebase. rewrite !read_into_app.
  cbn [read_into]. rewrite H.
  destruct (is_file p && should_include_file base p); reflexivity.
Qed.

Lemma unreadable_file_is_skipped_witness :
  content (FoundPath [str "secret.json"] true (Some 10%N) None) = None
  /\ read_codebase [str "proj"]
       ([FoundPath [str "a.py"] true (Some 3%N) (Some (str "a"))]
          ++ FoundPath [str "secret.json"] true (Some 10%N) None
          :: [FoundPath [str "b.py"] true (Some 3%N) (Some (str "b"))])
     = read_codebase [str "proj"]
         ([FoundPath [str "a.py"] true (Some 3%N) (Some (str "a"))]
            ++ [FoundPath [str "b.py"] true (Some 3%N) (Some (str "b"))]).
Proof.
  split; [reflexivity|].
  apply unreadable_file_is_skipped; reflexivity.
Defined.

(** What the walk of the example project gives. *)
Example read_codebase_example :
  read_codebase [str "proj"] project_files
  = [(str "src/app.PY", str "x = 1"); (str "README.md", str "# Hi")].
Proof. vm_compute; reflexivity. Qed.

(** ** The prompt does not depend on the order of the walk *)

Lemma distinct_NoDup (l : list text) : distinct l = true <-> NoDup l.
Proof.
  induction l as [|x l IH]; cbn [distinct].
  - split; [constructor|reflexivity].
  - rewrite andb_true_iff, negb_true_iff, IH. split.
    + intros [M D]. constructor; auto.
      intros I. apply member_In in I. congruence.
    + intros H. inversion H as [|? ? N D]; subst. split; auto.
      destruct (member x l) eqn:M; auto.
      apply member_In in M. contradiction.
Qed.

Lemma read_items_keys base found k :
  In k (map fst (read_items base found)) -> In k (map relative_path found).
Proof.
  induction found as [|p found IH]; cbn [read_items map]; auto.
  destruct (is_file p && should_include_file base p);
    [|intros H; right; auto].
  destruct (content p); cbn [map fst In]; [|intros H; right; auto].
  intros [H|H]; [left|right]; auto.
Qed.

Lemma read_items_NoDup base found :
  NoDup (map relative_path found) -> NoDup (map fst (read_items base found)).
Proof.
  induction found as [|p found IH]; cbn [read_items map]; auto.
  intros H. inversion H as [|? ? N D]; subst.
  destruct (is_file p && should_include_file base p); auto.
  destruct (content p); cbn [map fst]; auto.
  constructor; auto.
  intros I. apply N. eapply read_items_keys; eauto.
Qed.

Lemma dict_set_fresh d k v :
  ~ In k (map fst d) -> dict_set d k v = d ++ [(k, v)].
Proof.
  induction d as [|[k0 v0] d IH]; cbn [dict_set map fst app In]; auto.
  intros H. destruct (text_eqb k k0) eqn:E.
  - apply text_eqb_eq in E. exfalso; apply H; auto.
  - rewrite IH; auto.
Qed.

Lemma fold_set_fresh items : forall d,
  NoDup (map fst d ++ map fst items) ->
  fold_left (fun d kv => dict_set d (fst kv) (snd kv)) items d = d ++ items.
Proof.
  induction items as [|[k v] items IH]; intros d H; cbn [fold_left fst snd].
  - rewrite app_nil_r; reflexivity.
  - cbn [map fst] in H.
    rewrite dict_set_fresh.
    + rewrite IH.
      * rewrite <- app_assoc; reflexivity.
      * rewrite map_app; cbn [map fst]. rewrite <- app_assoc. exact H.
    + apply NoDup_remove_2 in H. intros I; apply H.
      apply in_or_app; auto.
Qed.

Lemma read_codebase_items base found :
  NoDup (map relative_path found) ->
  read_codebase base found = read_items base found.
Proof.
  intros H. unfold read_codebase. rewrite read_into_items.
  rewrite fold_set_fresh; [reflexivity|].
  cbn [map app]. apply read_items_NoDup; exact H.
Qed.

Lemma read_items_permutation base found1 found2 :
  Permutation found1 found2 ->
  Permutation (read_items base found1) (read_items base found2).
Proof.
  induction 1 as [|p l1 l2 H IH|p q l|l1 l2 l3 H1 IH1 H2 IH2];
    cbn [read_items].
  - constructor.
  - destruct (is_file p && should_include_file base p); auto.
    destruct (content p); auto.
  - destruct (is_file p && should_include_file base p);
      destruct (is_file q && should_include_file base q);
      destruct (content p); destruct (content q);
      try apply Permutation_refl.
    apply perm_swap.
  - eapply Permutation_trans; eauto.
Qed.

(** X14.  The prompt built from a directory does not depend on the order in
    which the walk yields its paths: two walks that yield the same paths,
    each with its own relative path, give the same text to send. *)
Theorem prompt_independent_of_walk_order base found1 found2 :
  Permutation found1 found2 ->
  distinct (map relative_path found1) = true ->
  format_codebase_for_api (read_codebase base found1)
  = format_codebase_for_api (read_codebase base found2).
Proof.
  intros P D. apply distinct_NoDup in D.
  assert (D2 : NoDup (map relative_path found2)).
  { eapply Permutation_NoDup; [|exact D]. apply Permutation_map; exact P. }
  rewrite (@read_codebase_items base found1 D), (@read_codebase_items base found2 D2).
  apply format_codebase_permutation, read_items_permutation, P.
Qed.

Lemma prompt_independent_of_walk_order_witness :
  Permutation project_files (rev project_files)
  /\ distinct (map relative_path project_files) = true
  /\ read_codebase [str "proj"] project_files
     <> read_codebase [str "proj"] (rev project_files)
  /\ format_codebase_for_api (read_codebase [str "proj"] project_files)
     = format_codebase_for_api
         (read_codebase [str "proj"] (rev project_files)).
Proof.
  split; [apply Permutation_rev|]. split; [reflexivity|].
  split; [discriminate|].
  apply prompt_independent_of_walk_order;
    [apply Permutation_rev | reflexivity].
Defined.

Lemma dict_get_In (d : dict) k c :
  NoDup (map fst d) -> In (k, c) d -> dict_get d k = Some c.
Proof.
  induction d as [|[k0 c0] d IH]; cbn [map fst In dict_get]; [intros _ []|].
  intros N [E|I].
  - injection E as -> ->. rewrite text_eqb_refl. reflexivity.
  - inversion N as [|? ? N1 N2]; subst.
    destruct (text_eqb k k0) eqn:E; auto.
    apply text_eqb_eq in E; subst k0.
    exfalso; apply N1. exact (in_map fst _ _ I).
Qed.

Lemma read_items_complete base found p c :
  In p found ->
  is_file p = true -> should_include_file base p = true ->
  content p = Some c ->
  In (relative_path p, c) (read_items base found).
Proof.
  intros I F S C.
  induction found as [|q found IH]; cbn [read_items]; [destruct I|].
  destruct I as [->|I].
  - rewrite F, S, C. left; reflexivity.
  - destruct (is_file q && should_include_file base q); auto.
    destruct (content q); auto. right; auto.
Qed.

(** X15.  No suitable file is lost: when the walk yields each path once,
    every regular file it yields that is to be included and can be read
    stands in the mapping under its relative path, with its text. *)
Theorem read_codebase_keeps_every_suitable_file base found p c :
  distinct (map relative_path found) = true ->
  In p found ->
  is_file p = true ->
  should_include_file base p = true ->
  content p = Some c ->
  dict_get (read_codebase base found) (relative_path p) = Some c.
Proof.
  intros D I F S C. apply distinct_NoDup in D.
  rewrite (@read_codebase_items base found D).
  apply dict_get_In.
  - apply read_items_NoDup; exact D.
  - apply read_items_complete; auto.
Qed.

Lemma read_codebase_keeps_every_suitable_file_witness :
  dict_get (read_codebase [str "proj"] project_files) (str "README.md")
  = Some (str "# Hi").
Proof.
  apply (@read_codebase_keeps_every_suitable_file [str "proj"] project_files
           (FoundPath [str "README.md"] true (Some 7%N) (Some (str "# Hi")))
           (str "# Hi")).
  - reflexivity.
  - do 5 right; left; reflexivity.
  - reflexivity.
  - reflexivity.
  - reflexivity.
Defined.
